(** * ts3warden: the protection registry, the command handler, the idle
    sweep and the reconnect handler of [src/index.ts]

    The bot is one event-driven script.  Its handlers are embedded as
    functions from the state they read (the global [protectedUsers] map and
    whether the process has exited) and the values the TeamSpeak session
    answers with, to the new state and the list of effects the handler
    performs, in program order.

    Conventions.
    - A [Date] is its [getTime()]: an integer number of milliseconds ([Z]).
    - [client.idleTime] is an integer number of milliseconds ([Z]).
    - [config.moderation.idletime] is taken as an integer ([Z]).  The
      schema ([z.number()]) also admits fractions and huge values, and the
      code multiplies doubles: the integer products are those of the code
      for [|idletime| ≤ maxExactIdletime], where every product stays below
      2^53.  The double expressions themselves are [sweepPeriod_double] and
      [idleThreshold_double].
    - The one fractional quantity, [date.subtract(..).toMinutes()], is a
      rational ([Q]).
    - [Map<string, Date>] is a [gmap string Z]; the iteration order of the
      JavaScript map (insertion order) is not tracked, it only shows in the
      order of log lines.
    - An [await]ed call that rejects makes the enclosing handler reject; a
      promise that is dropped and rejects is an unhandled rejection.  The
      script installs no listener for either, so the runtime ends the
      process when one occurs.  The embedding records the rejection as the
      effect [UnhandledRejection] and follows the handler's own control
      flow; it does not end the run there.  Up to the first
      [UnhandledRejection] of a trace the embedding and the program do the
      same; every statement about what comes after one (that a later client
      is moved, that a later event is handled, when [exit] is called) is
      made under the hypothesis that none occurred.
    - The events of the model are those whose handler could start: a timer
      cycle is given with the answers of its two queries.
    - A handler is taken as one step.  The script is single-threaded, but
      the [await]s of the timer callback let other handlers run in between;
      the statements about one cycle read the registry as the purge of that
      cycle left it. *)

From Stdlib Require Import ZArith QArith String List Lia Bool Floats.
From stdpp Require Import base gmap strings list fin_maps.

Local Open Scope Z_scope.

(** ** Data *)

(** [TextMessageTargetMode] of ts3-nodejs-library. *)
Inductive TextMessageTargetMode := CLIENT | CHANNEL | SERVER.

Definition targetmode_eqb (a b : TextMessageTargetMode) : bool :=
  match a, b with
  | CLIENT, CLIENT | CHANNEL, CHANNEL | SERVER, SERVER => true
  | _, _ => false
  end.

(** The fields of a [TeamSpeakClient] that the handlers read. *)
Record Client := {
  clid : string;        (* session-scoped client id *)
  cid : string;         (* id of the channel the client is in *)
  idleTime : Z;         (* milliseconds *)
  nickname : string
}.

(** A [TeamSpeakChannel]; only its id is read. *)
Record Channel := { channel_cid : string }.

(** The payload of a ["textmessage"] event. *)
Record TextMessage := {
  targetmode : TextMessageTargetMode;
  invoker : Client;
  msg : string
}.

(** [configSchema]: the one field the handlers use, [moderation.idletime],
    for its integer values (see the conventions above). *)
Record Config := { idletime : Z }.

(** The texts sent to clients with [client.message]. *)
Inductive Notice :=
| ProtectionAck                      (* "Na gut, ich move dich ... nicht mehr :(" *)
| IdleNotice (nick : string).        (* "Ey ${nickname}, idle mal hier nicht rum. ..." *)

(** The calls on [logger], one constructor per call site. *)
Inductive Level := LDebug | LInfo | LWarn | LError.

Inductive LogLine :=
| CloseReason (err : string)                       (* JSON.stringify(err) *)
| ConnectionLost                                   (* "Connection lost, trying to reconnect..." *)
| Reconnected                                      (* "Reconnected!" *)
| SawMessage (nick text : string)                  (* "I saw a message from ..." *)
| ProtectionRequest (nick id : string)             (* "Got protection request from user ..." *)
| NewProtectionList (keys : list string)
| SomethingWentWrong (err : string)
| CheckingProtection
| CurrentProtectionList (keys : list string)
| NoLongerProtected (id : string)
| CheckingIdle
| UnableToFindLobby
| ProtectedNotMoved (id : string)
| WillBeMoved (nick : string) (idle : Z)
| SendingMessage (nick : string) (text : Notice)
| ErrorSending (err : string).

(** What a handler does to the outside world. *)
Inductive Effect :=
| Log (lvl : Level) (line : LogLine)
| Reconnect (attempts timeout : Z)        (* teamspeak.reconnect(attempts, timeout) *)
| Message (client : Client) (text : Notice)   (* client.message(msg) is called *)
| Move (client : Client) (to : string)        (* client.move(cid) is called *)
| DbInsert (time : Z) (client : Client)       (* INSERT INTO clientinfo *)
| UnhandledRejection (err : string)
| Exit (code : Z).                            (* process.exit(code) *)

(** How a call into the session ends: the promise resolves, the call throws
    before returning a promise, or the promise it returned rejects. *)
Inductive Outcome := Resolves | Throws (err : string) | Rejects (err : string).

(** The script's mutable state: the global map, and the exit code once
    [exit] has been called. *)
Record State := {
  protectedUsers : gmap string Z;
  exitCode : option Z
}.

Definition setProtectedUsers (m : gmap string Z) (st : State) : State :=
  {| protectedUsers := m; exitCode := exitCode st |}.

Definition initialState : State := {| protectedUsers := ∅; exitCode := None |}.

(** ** The date-and-time helpers the script calls *)

(** [date.addHours(d, h)]. *)
Definition addHours (d : Z) (hours : Z) : Z := d + hours * 3600000.

(** [date.subtract(date1, date2).toMinutes()]: the difference of the two
    instants in minutes, [delta / 60000], not rounded. *)
Definition subtract_toMinutes (date1 date2 : Z) : Q := ((date1 - date2) # 60000)%Q.

(** [q > 0] on that fraction. *)
Definition Qpositive (q : Q) : bool :=
  match (q ?= 0)%Q with Gt => true | _ => false end.

(** ** The protection registry *)

(** [protectedUsers.has(k)]. *)
Definition has (m : gmap string Z) (k : string) : bool :=
  match m !! k with Some _ => true | None => false end.

(** [formatProtectedUsers]: the keys of the map (the brackets and commas of
    the log text are left out). *)
Definition formatProtectedUsers (m : gmap string Z) : list string :=
  (map_to_list m).*1.

(** The test of the expiry purge: [date.subtract(now, v).toMinutes() > 0]. *)
Definition expired (now v : Z) : bool := Qpositive (subtract_toMinutes now v).

(** The body of [protectedUsers.forEach((v, k) => ...)] in the timer
    callback: the accumulator is the map being mutated and the lines logged
    so far. *)
Definition purgeEntry (now : Z) (acc : gmap string Z * list Effect) (kv : string * Z)
  : gmap string Z * list Effect :=
  if expired now kv.2
  then (delete kv.1 acc.1, acc.2 ++ [Log LInfo (NoLongerProtected kv.1)])
  else acc.

(** The [forEach] itself.  The callback deletes nothing but the entry it is
    visiting, so every entry of the map as it was is visited once. *)
Definition purgeExpired (now : Z) (m : gmap string Z) : gmap string Z * list Effect :=
  foldl (purgeEntry now) (m, []) (map_to_list m).

(** ** The handlers *)

Section Bot.

(** The validated configuration, the bot's own client id
    ([me.clientId]) and the answers of the session to the two calls whose
    failure the handlers have to cope with. *)
Variable config : Config.
Variable me : string.
Variable message : Client -> Notice -> Outcome.
Variable move : Client -> string -> Outcome.

(** [trySendMessage].  The call [client.message(msg)] stands inside
    [try], but the promise it returns is not awaited: [catch] sees a call
    that throws, not a promise that rejects later.  [UnhandledRejection]
    marks, at the place of the call, a promise that is going to reject with
    nobody to catch it; the rejection itself surfaces once the caller has
    gone on (in the loop: once [client.move] has been called). *)
Definition trySendMessage (client : Client) (text : Notice) : list Effect :=
  Log LDebug (SendingMessage (nickname client) text) ::
  Message client text ::
  match message client text with
  | Resolves => []
  | Throws err => [Log LWarn (ErrorSending err)]
  | Rejects err => [UnhandledRejection err]
  end.

(** The ["close"] handler.  [reconnected] says whether
    [teamspeak.reconnect] ever returns. *)
Definition onClose (err : string) (reconnected : bool) : list Effect :=
  [Log LWarn (CloseReason err); Log LWarn ConnectionLost; Reconnect (-1) 1000]
  ++ (if reconnected then [Log LWarn Reconnected] else []).

(** The filter of the ["textmessage"] handler:
    [e.targetmode === TextMessageTargetMode.CLIENT || e.invoker.clid !== me.clientId]. *)
Definition reacts (e : TextMessage) : bool :=
  targetmode_eqb (targetmode e) CLIENT || negb (String.eqb (clid (invoker e)) me).

(** The ["textmessage"] handler; [now] is what [new Date()] reads. *)
Definition onTextMessage (now : Z) (e : TextMessage) (st : State) : State * list Effect :=
  if reacts e then
    if String.prefix "!stop" (msg e) then
      let m := <[clid (invoker e) := addHours now 3]> (protectedUsers st) in
      (setProtectedUsers m st,
       [Log LDebug (SawMessage (nickname (invoker e)) (msg e));
        Log LInfo (ProtectionRequest (nickname (invoker e)) (clid (invoker e)));
        Log LInfo (NewProtectionList (formatProtectedUsers m))]
       ++ trySendMessage (invoker e) ProtectionAck)
    else (st, [Log LDebug (SawMessage (nickname (invoker e)) (msg e))])
  else (st, []).

(** The ["clientconnect"] handler ([handleClientListChange]); [now] is
    [getCurrentUnixTime()]. *)
Definition handleClientListChange (now : Z) (client : Client) : list Effect :=
  [DbInsert now client].

(** The ["error"] handler. *)
Definition onError (err : string) : list Effect :=
  [Log LError (SomethingWentWrong err)].

(** The threshold an idle time is compared with, and the period handed to
    [setInterval], both in milliseconds. *)
Definition idleThreshold : Z := idletime config * 60 * 1000.
Definition sweepPeriod : Z := idletime config * 1000.

(** The [for (const client of clients)] loop of the timer callback.  A
    [client.move] that fails rejects the callback: the rest of the list is
    not visited.  After a notification whose promise is rejected the function
    follows the loop to the later clients, although the process is ended by
    then (see the conventions): what it gives for those clients is the
    program's only when no notification was rejected. *)
Fixpoint moveIdleClients (lobby : Channel) (m : gmap string Z) (clients : list Client)
  : list Effect :=
  match clients with
  | [] => []
  | client :: rest =>
    if negb (String.eqb (cid client) (channel_cid lobby)) then
      if idleTime client >? idleThreshold then
        if has m (clid client) then
          Log LDebug (ProtectedNotMoved (clid client)) :: moveIdleClients lobby m rest
        else
          Log LInfo (WillBeMoved (nickname client) (idleTime client)) ::
          trySendMessage client (IdleNotice (nickname client)) ++
          Move client (channel_cid lobby) ::
          match move client (channel_cid lobby) with
          | Resolves => moveIdleClients lobby m rest
          | Throws err | Rejects err => [UnhandledRejection err]
          end
      else moveIdleClients lobby m rest
    else moveIdleClients lobby m rest
  end.

(** The timer callback.  [now] is what [new Date()] reads, [clients] what
    [teamspeak.clientList] answers and [lobby] what
    [teamspeak.getChannelByName("Lobby")] answers. *)
Definition onInterval (now : Z) (clients : list Client) (lobby : option Channel)
    (st : State) : State * list Effect :=
  let purged := purgeExpired now (protectedUsers st) in
  let head :=
    [Log LDebug CheckingProtection;
     Log LDebug (CurrentProtectionList (formatProtectedUsers (protectedUsers st)))]
    ++ purged.2 ++ [Log LDebug CheckingIdle] in
  match lobby with
  | None =>
    ({| protectedUsers := purged.1; exitCode := Some 1 |},
     head ++ [Log LError UnableToFindLobby; Exit 1])
  | Some lobby =>
    (setProtectedUsers purged.1 st, head ++ moveIdleClients lobby purged.1 clients)
  end.

(** ** The event loop *)

(** What the runtime can deliver to the script.  No handler is registered
    for ["clientdisconnect"] (the registration is commented out). *)
Inductive Event :=
| EvClose (err : string) (reconnected : bool)
| EvTextMessage (now : Z) (e : TextMessage)
| EvClientConnect (now : Z) (client : Client)
| EvClientDisconnect (client : Client)
| EvError (err : string)
| EvInterval (now : Z) (clients : list Client) (lobby : option Channel).

(** One event, handled to completion.  After [exit] nothing runs.
    [exitCode] records the script's own call of [exit]; the end of the
    process by an unhandled rejection is not recorded in it (see the
    conventions). *)
Definition step (st : State) (ev : Event) : State * list Effect :=
  match exitCode st with
  | Some _ => (st, [])
  | None =>
    match ev with
    | EvClose err reconnected => (st, onClose err reconnected)
    | EvTextMessage now e => onTextMessage now e st
    | EvClientConnect now client => (st, handleClientListChange now client)
    | EvClientDisconnect _ => (st, [])
    | EvError err => (st, onError err)
    | EvInterval now clients lobby => onInterval now clients lobby st
    end
  end.

Fixpoint run (st : State) (evs : list Event) : State * list Effect :=
  match evs with
  | [] => (st, [])
  | ev :: rest =>
    let r := step st ev in
    let r' := run r.1 rest in
    (r'.1, r.2 ++ r'.2)
  end.

End Bot.

(** ** What the specification says, where it is compared with the code *)

(** The filter of the command interpreter in the specification's words:
    react unless ([targetmode == CLIENT] and sender == self). *)
Definition reacts_spec (me : string) (e : TextMessage) : bool :=
  negb (targetmode_eqb (targetmode e) CLIENT && String.eqb (clid (invoker e)) me).

(** The protection check in the specification's words: an entry exists and
    its expiry has not yet passed at call time. *)
Definition isProtected_spec (m : gmap string Z) (k : string) (callTime : Z) : bool :=
  match m !! k with Some expiry => callTime <? expiry | None => false end.

(** The expiry sweep in the specification's words: every entry whose expiry
    is [≤ now] is removed, the others stay. *)
Definition sweep_spec (now : Z) (m : gmap string Z) : gmap string Z :=
  filter (λ kv, now < kv.2) m.

(** ** Vocabulary for the statements about the timer callback *)

(** The [client.move] calls among a list of effects, in order. *)
Definition movesOf (effs : list Effect) : list (Client * string) :=
  flat_map (λ eff, match eff with Move c to => [(c, to)] | _ => [] end) effs.

(** The three guards around [client.move] in the loop, taken together: the
    client is outside the lobby, idle for longer than the threshold, and has
    no entry in the registry the loop reads. *)
Definition selectedForMove (config : Config) (lobby : Channel) (m : gmap string Z)
    (client : Client) : bool :=
  negb (String.eqb (cid client) (channel_cid lobby))
  && (idleTime client >? idleThreshold config)
  && negb (has m (clid client)).

(** ** Vocabulary for the statements about sequences of events *)

(** The [teamspeak.reconnect] calls among a list of effects, in order. *)
Definition reconnectsOf (effs : list Effect) : list (Z * Z) :=
  flat_map (λ eff, match eff with Reconnect a t => [(a, t)] | _ => [] end) effs.

(** The number of connection losses among a list of events. *)
Definition closes (evs : list Event) : nat :=
  length (List.filter (λ ev, match ev with EvClose _ _ => true | _ => false end) evs).

(** An event that is neither a message of the identity [k] nor a timer
    cycle whose [now] is after the instant [v]. *)
Definition sparesEntry (k : string) (v : Z) (ev : Event) : Prop :=
  match ev with
  | EvTextMessage _ e => clid (invoker e) ≠ k
  | EvInterval now _ _ => now ≤ v
  | _ => True
  end.

Global Instance sparesEntry_dec (k : string) (v : Z) (ev : Event) :
  Decision (sparesEntry k v ev).
Proof. destruct ev; simpl; apply _. Defined.

(** ** Vocabulary for the statements about notifications and the database *)

(** The [client.message] calls among a list of effects, in order. *)
Definition messagesOf (effs : list Effect) : list (Client * Notice) :=
  flat_map (λ eff, match eff with Message c text => [(c, text)] | _ => [] end) effs.

(** The rows written to [clientinfo] among a list of effects, in order. *)
Definition insertsOf (effs : list Effect) : list (Z * Client) :=
  flat_map (λ eff, match eff with DbInsert t c => [(t, c)] | _ => [] end) effs.

(** The ["clientconnect"] events among a list of events, in order. *)
Definition connectsOf (evs : list Event) : list (Z * Client) :=
  flat_map (λ ev, match ev with EvClientConnect t c => [(t, c)] | _ => [] end) evs.

(** A timer cycle in which the lobby is not found. *)
Definition lobbyMissing (ev : Event) : bool :=
  match ev with EvInterval _ _ None => true | _ => false end.

(** ** The configured number as a double *)

(** The largest integer [n] for which [n * 60 * 1000] does not exceed 2^53:
    up to it the products of the code are exact. *)
Definition maxExactIdletime : Z := 150119987579.

(** A configuration whose [idletime] is in that range. *)
Definition idletimeExact (config : Config) : Prop :=
  Z.abs (idletime config) ≤ maxExactIdletime.

(** [config.moderation.idletime * 1000] and
    [config.moderation.idletime * 60 * 1000] as the code computes them, on
    doubles. *)
Definition sweepPeriod_double (idletime : float) : float := (idletime * 1000)%float.
Definition idleThreshold_double (idletime : float) : float :=
  (idletime * 60 * 1000)%float.

Global Instance idletimeExact_dec (config : Config) : Decision (idletimeExact config).
Proof. unfold idletimeExact. apply _. Defined.

(** ** Vocabulary for the statements about failures *)

(** The rejections left unhandled among a list of effects, in order. *)
Definition unhandledOf (effs : list Effect) : list string :=
  flat_map (λ eff, match eff with UnhandledRejection err => [err] | _ => [] end) effs.

(** The [process.exit] calls among a list of effects, in order. *)
Definition exitsOf (effs : list Effect) : list Z :=
  flat_map (λ eff, match eff with Exit code => [code] | _ => [] end) effs.

(** ** Concrete values for the examples *)

Definition bot : string := "1".

Definition botClient : Client :=
  {| clid := "1"; cid := "10"; idleTime := 0; nickname := "warden" |}.

(** A client in channel 20, idle for 10:01. *)
Definition alice : Client :=
  {| clid := "7"; cid := "20"; idleTime := 601000; nickname := "alice" |}.

(** A client in channel 20, idle for 9:59. *)
Definition bob : Client :=
  {| clid := "8"; cid := "20"; idleTime := 599000; nickname := "bob" |}.

(** A second client in channel 20, idle for 10:01. *)
Definition dave : Client :=
  {| clid := "11"; cid := "20"; idleTime := 601000; nickname := "dave" |}.

Definition lobbyChannel : Channel := {| channel_cid := "10" |}.

Definition tenMinutes : Config := {| idletime := 10 |}.

Definition messageResolves : Client -> Notice -> Outcome := λ _ _, Resolves.
Definition messageRejects : Client -> Notice -> Outcome := λ _ _, Rejects "offline".
Definition moveResolves : Client -> string -> Outcome := λ _ _, Resolves.

Definition moveRejects : Client -> string -> Outcome := λ _ _, Rejects "gone".

(** A client in channel 30, idle for 20 minutes. *)
Definition carol : Client :=
  {| clid := "9"; cid := "30"; idleTime := 1200000; nickname := "carol" |}.

Definition stopFrom (mode : TextMessageTargetMode) (c : Client) : TextMessage :=
  {| targetmode := mode; invoker := c; msg := "!stop" |}.

Definition withRegistry (m : gmap string Z) : State :=
  {| protectedUsers := m; exitCode := None |}.

(** * Properties *)

(** ** The expiry test *)

Lemma Qpositive_toMinutes (a b : Z) :
  Qpositive (subtract_toMinutes a b) = true ↔ b < a.
Proof.
  unfold Qpositive, subtract_toMinutes, Qcompare. simpl.
  rewrite Z.mul_1_r. change (0 * 60000) with 0.
  destruct (Z.compare_spec (a - b) 0) as [Hc|Hc|Hc]; split; intros H;
    solve [ discriminate H | reflexivity | lia ].
Qed.

Lemma expired_true (now v : Z) : expired now v = true ↔ v < now.
Proof. apply Qpositive_toMinutes. Qed.

Lemma expired_false (now v : Z) : expired now v = false ↔ now ≤ v.
Proof.
  pose proof (expired_true now v) as [H1 H2].
  destruct (expired now v); split; intros H; try done.
  - specialize (H1 eq_refl). lia.
  - destruct (Z_lt_le_dec v now) as [Hlt|Hle]; [|done].
    specialize (H2 Hlt). discriminate.
Qed.

(** ** The purge as a fold *)

Lemma purge_fold_None (now : Z) (l : list (string * Z)) :
  ∀ (acc : gmap string Z * list Effect) (k : string),
    acc.1 !! k = None → (foldl (purgeEntry now) acc l).1 !! k = None.
Proof.
  induction l as [|[k' v'] l IH]; intros acc k Hk; simpl; [done|].
  apply IH. unfold purgeEntry. simpl.
  destruct (expired now v'); simpl; [|done].
  destruct (decide (k' = k)) as [->|Hne].
  - apply lookup_delete_eq.
  - by rewrite lookup_delete_ne.
Qed.

Lemma purge_fold_removed (now : Z) (l : list (string * Z)) :
  ∀ (acc : gmap string Z * list Effect) (k : string) (v : Z),
    (k, v) ∈ l → v < now → (foldl (purgeEntry now) acc l).1 !! k = None.
Proof.
  induction l as [|[k' v'] l IH]; intros acc k v Hin Hv; simpl.
  - by apply elem_of_nil in Hin.
  - apply elem_of_cons in Hin as [Heq|Hin].
    + inversion Heq; subst k' v'. apply purge_fold_None.
      unfold purgeEntry. simpl.
      assert (expired now v = true) as -> by (by apply expired_true).
      simpl. apply lookup_delete_eq.
    + by apply (IH _ k v).
Qed.

Lemma purge_fold_kept (now : Z) (l : list (string * Z)) :
  ∀ (acc : gmap string Z * list Effect) (k : string),
    (∀ v, (k, v) ∈ l → now ≤ v) →
    (foldl (purgeEntry now) acc l).1 !! k = acc.1 !! k.
Proof.
  induction l as [|[k' v'] l IH]; intros acc k Hall; simpl; [done|].
  rewrite IH.
  - unfold purgeEntry. simpl.
    destruct (expired now v') eqn:He; simpl; [|done].
    apply expired_true in He.
    destruct (decide (k' = k)) as [->|Hne].
    + specialize (Hall v' (list_elem_of_here _ _)). lia.
    + by rewrite lookup_delete_ne.
  - intros v Hin. apply Hall. by apply list_elem_of_further.
Qed.

(** What the purge leaves of each entry. *)
Lemma purgeExpired_lookup (now : Z) (m : gmap string Z) (k : string) :
  (purgeExpired now m).1 !! k =
  match m !! k with
  | Some v => if expired now v then None else Some v
  | None => None
  end.
Proof.
  unfold purgeExpired.
  destruct (m !! k) as [v|] eqn:Hk.
  - destruct (expired now v) eqn:He.
    + apply (purge_fold_removed now _ _ k v).
      * by apply elem_of_map_to_list.
      * by apply expired_true.
    + rewrite purge_fold_kept; [done|].
      intros v' Hin. apply elem_of_map_to_list in Hin.
      assert (v' = v) as -> by congruence. by apply expired_false.
  - by apply purge_fold_None.
Qed.

(** The purge is a filter: it keeps the entries whose expiry is [≥ now]. *)
Lemma purgeExpired_filter (now : Z) (m : gmap string Z) :
  (purgeExpired now m).1 = filter (λ kv, now ≤ kv.2) m.
Proof.
  apply map_eq. intros k. rewrite purgeExpired_lookup.
  destruct (m !! k) as [v|] eqn:Hk.
  - destruct (expired now v) eqn:He.
    + symmetry. apply map_lookup_filter_None. right. intros v' Hv'. simpl.
      assert (v' = v) as -> by congruence. apply expired_true in He. lia.
    + symmetry. apply map_lookup_filter_Some. split; [done|]. simpl.
      by apply expired_false.
  - symmetry. apply map_lookup_filter_None. by left.
Qed.

Lemma has_true (m : gmap string Z) (k : string) :
  has m k = true ↔ is_Some (m !! k).
Proof.
  unfold has. destruct (m !! k) eqn:Hk; split; intros H; done.
Qed.

Lemma has_purged (now : Z) (m : gmap string Z) (k : string) :
  has (purgeExpired now m).1 k = true ↔ ∃ v, m !! k = Some v ∧ now ≤ v.
Proof.
  unfold has. rewrite purgeExpired_lookup.
  destruct (m !! k) as [v|].
  - destruct (expired now v) eqn:He.
    + apply expired_true in He. split; [done|]. intros (v' & Hv' & Hle).
      inversion Hv'; subst. lia.
    + apply expired_false in He. split; [|done]. intros _. by exists v.
  - split; [done|]. by intros (v' & Hv' & _).
Qed.

(** ** The timer period and the idle threshold *)

(** C2, as stated, fails: with [idletime = 10] the timer fires every
    10 000 ms, while the idle time is compared with 600 000 ms. *)
Lemma sweepPeriod_differs_from_threshold :
  sweepPeriod tenMinutes = 10000 ∧ idleThreshold tenMinutes = 600000 ∧
  sweepPeriod tenMinutes ≠ idleThreshold tenMinutes.
Proof. repeat split. discriminate. Qed.

(** The doubles of the code at an integer in range, at a fraction and at a
    huge value: at 10 they are the integers of the model; at 4.1 the
    threshold is not sixty periods; at 1e306 both are infinite. *)
#[local] Set Warnings "-inexact-float".

Lemma doubles_at_ten :
  sweepPeriod_double 10 = 10000%float ∧ idleThreshold_double 10 = 600000%float.
Proof. split; reflexivity. Qed.

Lemma doubles_at_fraction :
  idleThreshold_double 4.1 = 245999.99999999997%float ∧
  (60 * sweepPeriod_double 4.1)%float = 246000%float ∧
  PrimFloat.eqb (idleThreshold_double 4.1) (60 * sweepPeriod_double 4.1) = false.
Proof. repeat split; reflexivity. Qed.

Lemma doubles_at_huge :
  sweepPeriod_double 1e306 = infinity ∧ idleThreshold_double 1e306 = infinity.
Proof. split; reflexivity. Qed.

#[local] Set Warnings "+inexact-float".

(** C2, amended: both durations come from the one [idletime] value, the
    period as [idletime * 1000] and the threshold as [idletime * 60 * 1000].
    For an integer [idletime] in the range where these products are exact,
    the threshold is sixty periods, and the two coincide only for
    [idletime = 0]. *)
Theorem sweepPeriod_is_sixtieth_of_threshold (config : Config) :
  idletimeExact config →
  sweepPeriod config = idletime config * 1000 ∧
  idleThreshold config = idletime config * 60000 ∧
  idleThreshold config = 60 * sweepPeriod config ∧
  (sweepPeriod config = idleThreshold config ↔ idletime config = 0) ∧
  Z.abs (idleThreshold config) ≤ 2 ^ 53.
Proof.
  unfold idletimeExact, maxExactIdletime, sweepPeriod, idleThreshold. intros Hexact.
  repeat split; intros; lia.
Qed.

Lemma sweepPeriod_is_sixtieth_of_threshold_witness :
  sweepPeriod tenMinutes = idletime tenMinutes * 1000 ∧
  idleThreshold tenMinutes = idletime tenMinutes * 60000 ∧
  idleThreshold tenMinutes = 60 * sweepPeriod tenMinutes ∧
  (sweepPeriod tenMinutes = idleThreshold tenMinutes ↔ idletime tenMinutes = 0) ∧
  Z.abs (idleThreshold tenMinutes) ≤ 2 ^ 53.
Proof.
  apply (sweepPeriod_is_sixtieth_of_threshold tenMinutes).
  unfold idletimeExact, maxExactIdletime. simpl. lia.
Defined.

(** ** The command filter *)

Lemma reacts_iff (me : string) (e : TextMessage) :
  reacts me e = true ↔ targetmode e = CLIENT ∨ clid (invoker e) ≠ me.
Proof.
  unfold reacts. rewrite orb_true_iff, negb_true_iff.
  destruct (String.eqb_spec (clid (invoker e)) me) as [Heq|Hne];
    destruct (targetmode e); simpl; split; intros H;
    first [ by left | by right | by destruct H as [H|H] ].
Qed.

(** C3, as stated, fails in both cases where the sender is the bot: its own
    direct message with the prefix is processed (the bot protects itself),
    and its own channel message is not processed at all. *)
Lemma filter_differs_from_spec :
  reacts bot (stopFrom CLIENT botClient) = true ∧
  reacts_spec bot (stopFrom CLIENT botClient) = false ∧
  reacts bot (stopFrom CHANNEL botClient) = false ∧
  reacts_spec bot (stopFrom CHANNEL botClient) = true ∧
  onTextMessage bot messageResolves 0 (stopFrom CHANNEL botClient) initialState
    = (initialState, []) ∧
  protectedUsers
    (onTextMessage bot messageResolves 0 (stopFrom CLIENT botClient) initialState).1
    !! "1" = Some 10800000.
Proof. repeat split; reflexivity. Qed.

(** C3, amended: a message from any sender other than the bot is processed
    whatever its target mode, and a message of the bot itself in a
    non-direct target mode is dropped without any effect. *)
Theorem filter_by_sender (me : string) (message : Client -> Notice -> Outcome)
    (now : Z) (e : TextMessage) (st : State) :
  (clid (invoker e) ≠ me →
     reacts me e = true ∧
     ∃ rest, (onTextMessage me message now e st).2
             = Log LDebug (SawMessage (nickname (invoker e)) (msg e)) :: rest) ∧
  (clid (invoker e) = me → targetmode e ≠ CLIENT →
     reacts me e = false ∧ onTextMessage me message now e st = (st, [])).
Proof.
  split.
  - intros Hne. assert (reacts me e = true) as Hr by (apply reacts_iff; by right).
    split; [done|]. unfold onTextMessage. rewrite Hr.
    destruct (String.prefix "!stop" (msg e)); simpl; eauto.
  - intros Heq Hmode.
    assert (reacts me e = false) as Hr.
    { destruct (reacts me e) eqn:Hr; [|done].
      apply reacts_iff in Hr as [H|H]; done. }
    split; [done|]. unfold onTextMessage. by rewrite Hr.
Qed.

Lemma filter_by_sender_witness :
  (reacts bot (stopFrom SERVER alice) = true ∧
   ∃ rest, (onTextMessage bot messageResolves 0 (stopFrom SERVER alice) initialState).2
           = Log LDebug (SawMessage "alice" "!stop") :: rest) ∧
  (reacts bot (stopFrom SERVER botClient) = false ∧
   onTextMessage bot messageResolves 0 (stopFrom SERVER botClient) initialState
     = (initialState, [])).
Proof.
  split.
  - apply (proj1 (filter_by_sender bot messageResolves 0 (stopFrom SERVER alice)
                    initialState)).
    discriminate.
  - apply (proj2 (filter_by_sender bot messageResolves 0 (stopFrom SERVER botClient)
                    initialState)).
    + reflexivity.
    + discriminate.
Defined.

(** ** The protection check *)

(** The timer callback changes the registry by the purge and by nothing
    else: the loop over the clients, with its [has] checks, leaves it as the
    purge left it. *)
Lemma onInterval_registry (config : Config) (message : Client -> Notice -> Outcome)
    (move : Client -> string -> Outcome) (now : Z) (clients : list Client)
    (lobby : option Channel) (st : State) :
  protectedUsers (onInterval config message move now clients lobby st).1
  = (purgeExpired now (protectedUsers st)).1.
Proof. unfold onInterval. by destruct lobby. Qed.

(** C4, as stated, fails: the check does not look at the expiry.  An entry
    that expired at 1000 still counts at the instant 5000. *)
Lemma has_ignores_expiry :
  has {["7" := 1000]} "7" = true ∧
  isProtected_spec {["7" := 1000]} "7" 5000 = false.
Proof. split; reflexivity. Qed.

(** C4, amended: the check is true iff an entry for the identity exists,
    whatever its expiry and whatever the instant of the call; inside a timer
    cycle it reads the registry as the purge of that cycle left it, so the
    entries it finds are those whose expiry is not before the cycle's [now];
    and the cycle's registry is the purged one, the checks change nothing. *)
Theorem has_iff_entry_exists (config : Config) (message : Client -> Notice -> Outcome)
    (move : Client -> string -> Outcome) (now : Z) (clients : list Client)
    (lobby : option Channel) (st : State) (m : gmap string Z) (k : string) :
  (has m k = true ↔ is_Some (m !! k)) ∧
  (has (purgeExpired now m).1 k = true ↔ ∃ v, m !! k = Some v ∧ now ≤ v) ∧
  protectedUsers (onInterval config message move now clients lobby st).1
  = (purgeExpired now (protectedUsers st)).1.
Proof.
  split; [apply has_true|]. split; [apply has_purged|]. apply onInterval_registry.
Qed.

(** ** The expiry purge *)

(** C5, as stated, fails at the boundary: an entry whose expiry equals [now]
    is kept by the purge. *)
Lemma purge_keeps_entry_expiring_now :
  (purgeExpired 1000 {["7" := 1000]}).1 !! "7" = Some 1000 ∧
  sweep_spec 1000 {["7" := 1000]} !! "7" = None.
Proof.
  split.
  - rewrite purgeExpired_lookup, lookup_singleton_eq. reflexivity.
  - apply map_lookup_filter_None. right. intros v Hv.
    rewrite lookup_singleton_eq in Hv. inversion Hv; subst. simpl. lia.
Qed.

(** C5, amended: the purge removes exactly the entries whose expiry is
    strictly before [now]; every entry with expiry [≥ now] is retained
    unchanged. *)
Theorem purge_removes_entries_before_now (now : Z) (m : gmap string Z) :
  (purgeExpired now m).1 = filter (λ kv, now ≤ kv.2) m ∧
  ∀ k, (purgeExpired now m).1 !! k =
       match m !! k with
       | Some v => if v <? now then None else Some v
       | None => None
       end.
Proof.
  split; [apply purgeExpired_filter|].
  intros k. rewrite purgeExpired_lookup.
  destruct (m !! k) as [v|]; [|done].
  destruct (Z.ltb_spec v now) as [Hlt|Hge].
  - by apply expired_true in Hlt as ->.
  - by apply expired_false in Hge as ->.
Qed.

(** ** Granting protection *)

Lemma onTextMessage_grant (me : string) (message : Client -> Notice -> Outcome)
    (now : Z) (e : TextMessage) (st : State) :
  reacts me e = true → String.prefix "!stop" (msg e) = true →
  protectedUsers (onTextMessage me message now e st).1
  = <[clid (invoker e) := now + 10800000]> (protectedUsers st).
Proof.
  intros Hr Hp. unfold onTextMessage, addHours. rewrite Hr, Hp. simpl.
  f_equal.
Qed.

(** C6: a message with the prefix that passes the filter sets the sender's
    entry to [now + 3 h], whatever becomes of the acknowledgement; a second
    grant to the same identity leaves the registry as if the first had never
    happened, and the check, also after a purge, goes by the second expiry
    alone. *)
Theorem grant_replaces_expiry (me : string) (message : Client -> Notice -> Outcome)
    (t1 t2 : Z) (e1 e2 : TextMessage) (st : State) :
  reacts me e1 = true → String.prefix "!stop" (msg e1) = true →
  reacts me e2 = true → String.prefix "!stop" (msg e2) = true →
  clid (invoker e2) = clid (invoker e1) →
  protectedUsers (onTextMessage me message t1 e1 st).1
    = <[clid (invoker e1) := t1 + 3 * 3600000]> (protectedUsers st) ∧
  protectedUsers (onTextMessage me message t2 e2 (onTextMessage me message t1 e1 st).1).1
    = <[clid (invoker e1) := t2 + 3 * 3600000]> (protectedUsers st) ∧
  protectedUsers (onTextMessage me message t2 e2 (onTextMessage me message t1 e1 st).1).1
    !! clid (invoker e1) = Some (t2 + 3 * 3600000) ∧
  has (protectedUsers
         (onTextMessage me message t2 e2 (onTextMessage me message t1 e1 st).1).1)
      (clid (invoker e1)) = true ∧
  ∀ now,
    has (purgeExpired now
           (protectedUsers
              (onTextMessage me message t2 e2 (onTextMessage me message t1 e1 st).1).1)).1
        (clid (invoker e1)) = true
    ↔ now ≤ t2 + 3 * 3600000.
Proof.
  intros Hr1 Hp1 Hr2 Hp2 Hk.
  rewrite (onTextMessage_grant me message t2 e2) by done.
  rewrite (onTextMessage_grant me message t1 e1) by done.
  rewrite Hk, insert_insert_eq.
  change (3 * 3600000) with 10800000.
  split; [done|]. split; [done|].
  split; [apply lookup_insert_eq|].
  split; [unfold has; by rewrite lookup_insert_eq|].
  intros now. rewrite has_purged, lookup_insert_eq. split.
  - intros (v & Hv & Hle). inversion Hv; subst. done.
  - intros Hle. by eexists.
Qed.

Lemma grant_replaces_expiry_witness :
  protectedUsers (onTextMessage bot messageRejects 0 (stopFrom CLIENT alice) initialState).1
    = <["7" := 0 + 3 * 3600000]> ∅ ∧
  protectedUsers
    (onTextMessage bot messageRejects 5000 (stopFrom CHANNEL alice)
       (onTextMessage bot messageRejects 0 (stopFrom CLIENT alice) initialState).1).1
    = <["7" := 5000 + 3 * 3600000]> ∅ ∧
  protectedUsers
    (onTextMessage bot messageRejects 5000 (stopFrom CHANNEL alice)
       (onTextMessage bot messageRejects 0 (stopFrom CLIENT alice) initialState).1).1
    !! "7" = Some (5000 + 3 * 3600000) ∧
  has (protectedUsers
         (onTextMessage bot messageRejects 5000 (stopFrom CHANNEL alice)
            (onTextMessage bot messageRejects 0 (stopFrom CLIENT alice) initialState).1).1)
      "7" = true ∧
  ∀ now,
    has (purgeExpired now
           (protectedUsers
              (onTextMessage bot messageRejects 5000 (stopFrom CHANNEL alice)
                 (onTextMessage bot messageRejects 0 (stopFrom CLIENT alice)
                    initialState).1).1)).1
        "7" = true
    ↔ now ≤ 5000 + 3 * 3600000.
Proof.
  apply (grant_replaces_expiry bot messageRejects 0 5000
           (stopFrom CLIENT alice) (stopFrom CHANNEL alice) initialState);
    reflexivity.
Defined.

(** ** The idle sweep *)

Lemma movesOf_app (l1 l2 : list Effect) : movesOf (l1 ++ l2) = movesOf l1 ++ movesOf l2.
Proof. apply flat_map_app. Qed.

Lemma elem_of_movesOf (effs : list Effect) (c : Client) (to : string) :
  (c, to) ∈ movesOf effs ↔ Move c to ∈ effs.
Proof.
  induction effs as [|eff effs IH]; simpl.
  - by rewrite !elem_of_nil.
  - rewrite elem_of_app, IH, elem_of_cons.
    destruct eff; simpl; rewrite ?elem_of_nil, ?list_elem_of_singleton;
      split; intros [H|H]; try done; try (by right); try (by inversion H).
    + inversion H; subst. by left.
    + inversion H; subst. by left.
Qed.

Lemma movesOf_log (lvl : Level) (line : LogLine) (effs : list Effect) :
  movesOf (Log lvl line :: effs) = movesOf effs.
Proof. reflexivity. Qed.

Lemma movesOf_move (c : Client) (to : string) (effs : list Effect) :
  movesOf (Move c to :: effs) = (c, to) :: movesOf effs.
Proof. reflexivity. Qed.

Lemma movesOf_trySendMessage (message : Client -> Notice -> Outcome)
    (client : Client) (text : Notice) :
  movesOf (trySendMessage message client text) = [].
Proof. unfold trySendMessage. simpl. by destruct (message client text). Qed.

Lemma selectedForMove_true (config : Config) (lobby : Channel) (m : gmap string Z)
    (c : Client) :
  selectedForMove config lobby m c = true ↔
  cid c ≠ channel_cid lobby ∧ idleTime c > idletime config * 60 * 1000 ∧
  has m (clid c) = false.
Proof.
  unfold selectedForMove, idleThreshold.
  rewrite !andb_true_iff, !negb_true_iff, Z.gtb_gt.
  destruct (String.eqb_spec (cid c) (channel_cid lobby)) as [Heq|Hne]; simpl.
  - split; [intros [[H _] _]; discriminate | intros [H _]; done].
  - split; [intros [[_ H1] H2] | intros (_ & H1 & H2)]; repeat split; done.
Qed.

Section Sweep.

Variable config : Config.
Variable message : Client -> Notice -> Outcome.
Variable move : Client -> string -> Outcome.
Variable lobby : Channel.
Variable m : gmap string Z.

(** One turn of the loop, by whether the client is selected. *)
Lemma moveIdleClients_skip (c : Client) (rest : list Client) :
  selectedForMove config lobby m c = false →
  movesOf (moveIdleClients config message move lobby m (c :: rest))
  = movesOf (moveIdleClients config message move lobby m rest).
Proof.
  unfold selectedForMove. simpl.
  destruct (negb (cid c =? channel_cid lobby)%string); [|done].
  destruct (idleTime c >? idleThreshold config); [|done].
  destruct (has m (clid c)); [done|]. simpl. discriminate.
Qed.

Lemma moveIdleClients_select (c : Client) (rest : list Client) :
  selectedForMove config lobby m c = true →
  movesOf (moveIdleClients config message move lobby m (c :: rest))
  = (c, channel_cid lobby) ::
    match move c (channel_cid lobby) with
    | Resolves => movesOf (moveIdleClients config message move lobby m rest)
    | _ => []
    end.
Proof.
  unfold selectedForMove. cbn [moveIdleClients].
  destruct (negb (cid c =? channel_cid lobby)%string); [|done].
  destruct (idleTime c >? idleThreshold config); [|done].
  destruct (has m (clid c)); [done|]. intros _.
  rewrite movesOf_log, movesOf_app, movesOf_trySendMessage, movesOf_move.
  by destruct (move c (channel_cid lobby)).
Qed.

(** Every [client.move] of the loop is for a selected client of the list,
    into the lobby. *)
Lemma moveIdleClients_sound (clients : list Client) (c : Client) (to : string) :
  (c, to) ∈ movesOf (moveIdleClients config message move lobby m clients) →
  to = channel_cid lobby ∧ c ∈ clients ∧ selectedForMove config lobby m c = true.
Proof.
  induction clients as [|c' rest IH]; intros Hin.
  - by apply elem_of_nil in Hin.
  - destruct (selectedForMove config lobby m c') eqn:Hsel.
    + rewrite moveIdleClients_select in Hin by done.
      apply elem_of_cons in Hin as [Heq|Hin].
      * inversion Heq; subst. split; [done|]. split; [apply list_elem_of_here|done].
      * destruct (move c' (channel_cid lobby)); try by apply elem_of_nil in Hin.
        destruct (IH Hin) as (? & ? & ?).
        split; [done|]. split; [by apply list_elem_of_further|done].
    + rewrite moveIdleClients_skip in Hin by done.
      destruct (IH Hin) as (? & ? & ?).
      split; [done|]. split; [by apply list_elem_of_further|done].
Qed.

(** When no [client.move] fails, the moves the loop's control flow leads
    to are the selected clients, each once per occurrence in the list and in
    list order. *)
Lemma moveIdleClients_moves (clients : list Client) :
  (∀ c, c ∈ clients → move c (channel_cid lobby) = Resolves) →
  movesOf (moveIdleClients config message move lobby m clients)
  = (λ c, (c, channel_cid lobby)) <$> List.filter (selectedForMove config lobby m) clients.
Proof.
  induction clients as [|c rest IH]; intros Hmove; [done|].
  assert (∀ c', c' ∈ rest → move c' (channel_cid lobby) = Resolves) as Hrest
    by (intros c' Hc'; apply Hmove; by apply list_elem_of_further).
  cbn [List.filter].
  destruct (selectedForMove config lobby m c) eqn:Hsel.
  - rewrite moveIdleClients_select by done.
    rewrite (Hmove c (list_elem_of_here _ _)). cbn. by rewrite IH.
  - rewrite moveIdleClients_skip by done. by apply IH.
Qed.

End Sweep.

(** As far as the loop's own control flow goes, the outcome of the
    notifications has no bearing on the moves (the end of the process after
    a rejected one is outside it, see the conventions). *)
Lemma moves_independent_of_notifications (config : Config)
    (message message' : Client -> Notice -> Outcome) (move : Client -> string -> Outcome)
    (lobby : Channel) (m : gmap string Z) (clients : list Client) :
  movesOf (moveIdleClients config message move lobby m clients)
  = movesOf (moveIdleClients config message' move lobby m clients).
Proof.
  induction clients as [|c rest IH]; [done|].
  destruct (selectedForMove config lobby m c) eqn:Hsel.
  - rewrite !moveIdleClients_select by done. by rewrite IH.
  - by rewrite !moveIdleClients_skip.
Qed.

(** The purge only logs. *)
Lemma movesOf_purge_fold (now : Z) (l : list (string * Z)) :
  ∀ acc : gmap string Z * list Effect,
    movesOf (foldl (purgeEntry now) acc l).2 = movesOf acc.2.
Proof.
  induction l as [|kv l IH]; intros acc; simpl; [done|].
  rewrite IH. unfold purgeEntry.
  destruct (expired now kv.2); simpl; [|done].
  rewrite movesOf_app. simpl. apply app_nil_r.
Qed.

Lemma movesOf_onInterval (config : Config) (message : Client -> Notice -> Outcome)
    (move : Client -> string -> Outcome) (now : Z) (clients : list Client)
    (lobby : option Channel) (st : State) :
  movesOf (onInterval config message move now clients lobby st).2 =
  match lobby with
  | Some lobby =>
    movesOf (moveIdleClients config message move lobby
               (purgeExpired now (protectedUsers st)).1 clients)
  | None => []
  end.
Proof.
  unfold onInterval, purgeExpired.
  destruct lobby as [lobby|]; cbn [snd];
    rewrite !movesOf_app, movesOf_purge_fold; reflexivity.
Qed.

Section IdleSweepSelection.

Variable config : Config.
Variable message : Client -> Notice -> Outcome.
Variable move : Client -> string -> Outcome.
Variable now : Z.
Variable clients : list Client.
Variable lobby : Channel.
Variable st : State.

Local Abbreviation cycle := (onInterval config message move now clients (Some lobby) st).

Lemma cycle_move_sound (c : Client) (to : string) :
  Move c to ∈ cycle.2 →
  to = channel_cid lobby ∧ c ∈ clients ∧ cid c ≠ channel_cid lobby ∧
  idleTime c > idletime config * 60 * 1000 ∧
  has (protectedUsers cycle.1) (clid c) = false.
Proof.
  intros Hin. apply elem_of_movesOf in Hin.
  rewrite movesOf_onInterval in Hin.
  apply moveIdleClients_sound in Hin as (Hto & Hc & Hsel).
  apply selectedForMove_true in Hsel as (Ha & Hb & Hc').
  rewrite onInterval_registry. done.
Qed.




End IdleSweepSelection.



(** ** The missing lobby *)

Lemma run_exited (config : Config) (me : string) (message : Client -> Notice -> Outcome)
    (move : Client -> string -> Outcome) (st : State) (evs : list Event) :
  is_Some (exitCode st) → run config me message move st evs = (st, []).
Proof.
  intros [code Hcode]. induction evs as [|ev evs IH]; [done|].
  cbn [run]. unfold step. rewrite Hcode. cbn [fst snd]. by rewrite IH.
Qed.

(** C8: when [getChannelByName] answers nothing, the callback logs the
    error and calls [exit(1)]; it has called neither [client.move] nor
    [client.message], and no later event is handled. *)
Theorem missing_lobby_exits_before_any_move (config : Config) (me : string)
    (message : Client -> Notice -> Outcome) (move : Client -> string -> Outcome)
    (now : Z) (clients : list Client) (st : State) (evs : list Event) :
  exitCode (onInterval config message move now clients None st).1 = Some 1 ∧
  (∃ logs, (onInterval config message move now clients None st).2
           = logs ++ [Log LError UnableToFindLobby; Exit 1] ∧ movesOf logs = []) ∧
  movesOf (onInterval config message move now clients None st).2 = [] ∧
  (∀ c to, Move c to ∉ (onInterval config message move now clients None st).2) ∧
  run config me message move (onInterval config message move now clients None st).1 evs
  = ((onInterval config message move now clients None st).1, []).
Proof.
  split; [done|]. split.
  { eexists. split; [unfold onInterval; cbn [snd]; reflexivity|].
    unfold purgeExpired. rewrite !movesOf_app, movesOf_purge_fold. reflexivity. }
  split; [apply movesOf_onInterval|]. split.
  { intros c to Hin. apply elem_of_movesOf in Hin.
    rewrite movesOf_onInterval in Hin. by apply elem_of_nil in Hin. }
  by apply run_exited.
Qed.

(** ** The notification before the move *)

(** A [client.message] that throws is caught and logged. *)
Lemma trySendMessage_catches_throw (message : Client -> Notice -> Outcome)
    (client : Client) (text : Notice) (err : string) :
  message client text = Throws err →
  trySendMessage message client text
  = [Log LDebug (SendingMessage (nickname client) text); Message client text;
     Log LWarn (ErrorSending err)].
Proof. intros H. unfold trySendMessage. by rewrite H. Qed.

(** A [client.message] whose promise rejects is not: nothing is logged, the
    rejection stays unhandled. *)
Lemma trySendMessage_misses_rejection (message : Client -> Notice -> Outcome)
    (client : Client) (text : Notice) (err : string) :
  message client text = Rejects err →
  trySendMessage message client text
  = [Log LDebug (SendingMessage (nickname client) text); Message client text;
     UnhandledRejection err].
Proof. intros H. unfold trySendMessage. by rewrite H. Qed.

(** C7, at a notification whose promise rejects: the cycle for the idle
    client [alice] still calls [client.move] once, but the failure is neither
    caught nor logged by [trySendMessage]. *)
Theorem rejected_notification_goes_unhandled :
  onInterval tenMinutes messageRejects moveResolves 0 [alice] (Some lobbyChannel)
    initialState
  = (initialState,
     [Log LDebug CheckingProtection;
      Log LDebug (CurrentProtectionList []);
      Log LDebug CheckingIdle;
      Log LInfo (WillBeMoved "alice" 601000);
      Log LDebug (SendingMessage "alice" (IdleNotice "alice"));
      Message alice (IdleNotice "alice");
      UnhandledRejection "offline";
      Move alice "10"]).
Proof. reflexivity. Qed.

(** ** Reconnecting *)

Lemma reconnectsOf_app (l1 l2 : list Effect) :
  reconnectsOf (l1 ++ l2) = reconnectsOf l1 ++ reconnectsOf l2.
Proof. apply flat_map_app. Qed.

Lemma reconnectsOf_trySendMessage (message : Client -> Notice -> Outcome)
    (client : Client) (text : Notice) :
  reconnectsOf (trySendMessage message client text) = [].
Proof. unfold trySendMessage. simpl. by destruct (message client text). Qed.

Lemma reconnectsOf_purge_fold (now : Z) (l : list (string * Z)) :
  ∀ acc : gmap string Z * list Effect,
    reconnectsOf (foldl (purgeEntry now) acc l).2 = reconnectsOf acc.2.
Proof.
  induction l as [|kv l IH]; intros acc; simpl; [done|].
  rewrite IH. unfold purgeEntry.
  destruct (expired now kv.2); simpl; [|done].
  rewrite reconnectsOf_app. simpl. apply app_nil_r.
Qed.

Lemma reconnectsOf_cons (eff : Effect) (effs : list Effect) :
  reconnectsOf (eff :: effs) = reconnectsOf [eff] ++ reconnectsOf effs.
Proof. unfold reconnectsOf. simpl. by rewrite app_nil_r. Qed.

Lemma reconnectsOf_moveIdleClients (config : Config)
    (message : Client -> Notice -> Outcome) (move : Client -> string -> Outcome)
    (lobby : Channel) (m : gmap string Z) (clients : list Client) :
  reconnectsOf (moveIdleClients config message move lobby m clients) = [].
Proof.
  induction clients as [|c rest IH]; [done|].
  cbn [moveIdleClients].
  destruct (negb (cid c =? channel_cid lobby)%string); [|done].
  destruct (idleTime c >? idleThreshold config); [|done].
  destruct (has m (clid c)); [by rewrite reconnectsOf_cons|].
  rewrite reconnectsOf_cons, reconnectsOf_app, reconnectsOf_trySendMessage.
  rewrite (reconnectsOf_cons (Move _ _)).
  by destruct (move c (channel_cid lobby)).
Qed.

Section EventLoop.

Variable config : Config.
Variable me : string.
Variable message : Client -> Notice -> Outcome.
Variable move : Client -> string -> Outcome.

Local Abbreviation step' := (step config me message move).
Local Abbreviation run' := (run config me message move).

Lemma step_exited (st : State) (ev : Event) :
  is_Some (exitCode st) → step' st ev = (st, []).
Proof. intros [code Hcode]. unfold step. by rewrite Hcode. Qed.

(** [exit] is final: a state that is alive after a run was alive before it. *)
Lemma run_alive (evs : list Event) :
  ∀ st, exitCode (run' st evs).1 = None → exitCode st = None.
Proof.
  induction evs as [|ev evs IH]; intros st Hend; [done|].
  cbn [run fst] in Hend. apply IH in Hend.
  destruct (exitCode st) as [code|] eqn:Hcode; [|done].
  rewrite step_exited in Hend by (rewrite Hcode; by eexists).
  cbn [fst] in Hend. congruence.
Qed.

(** The only handler that reconnects is the one for ["close"]. *)
Lemma reconnectsOf_step (st : State) (ev : Event) :
  reconnectsOf (step' st ev).2 =
  match exitCode st, ev with
  | None, EvClose _ _ => [(-1, 1000)]
  | _, _ => []
  end.
Proof.
  unfold step. destruct (exitCode st); [done|].
  destruct ev as [err r|now e|now c|c|err|now clients lobby]; cbn [snd]; try done.
  - by destruct r.
  - unfold onTextMessage. destruct (reacts me e); [|done].
    destruct (String.prefix "!stop" (msg e)); [|done].
    cbn [snd]. apply reconnectsOf_trySendMessage.
  - unfold onInterval, purgeExpired.
    destruct lobby as [lobby|]; cbn [snd];
      rewrite !reconnectsOf_app, reconnectsOf_purge_fold,
        ?reconnectsOf_moveIdleClients; reflexivity.
Qed.

Lemma run_reconnects_alive (evs : list Event) :
  ∀ st, exitCode (run' st evs).1 = None →
        reconnectsOf (run' st evs).2 = repeat (-1, 1000) (closes evs).
Proof.
  induction evs as [|ev evs IH]; intros st Hend; [done|].
  pose proof (run_alive _ _ Hend) as Halive.
  cbn [run fst snd] in *.
  rewrite reconnectsOf_app, (IH _ Hend), reconnectsOf_step, Halive.
  unfold closes. by destruct ev.
Qed.

Lemma run_reconnects_bound (evs : list Event) :
  ∀ st, ∃ n, (n ≤ closes evs)%nat ∧
             reconnectsOf (run' st evs).2 = repeat (-1, 1000) n.
Proof.
  induction evs as [|ev evs IH]; intros st; [by exists 0%nat|].
  destruct (IH (step' st ev).1) as (n & Hn & Hrun).
  cbn [run fst snd]. rewrite reconnectsOf_app, Hrun, reconnectsOf_step.
  unfold closes in *.
  destruct (exitCode st); [exists n; split; [destruct ev; simpl; lia|done]|].
  destruct ev; simpl; first [ exists (S n); split; [lia|done] | exists n; split; [lia|done] ].
Qed.

(** C9: the ["close"] handler logs the loss and then calls
    [teamspeak.reconnect(-1, 1000)]: no bound on the attempts ([-1]), a
    fixed second between them; the ["error"] handler logs and does nothing
    else.  Over any sequence of events every reconnect is that call, there
    is at most one per loss, and exactly one per loss as long as the process
    has not exited. *)
Theorem close_reconnects_without_limit (st : State) (evs : list Event)
    (err : string) (reconnected : bool) :
  (∃ rest,
     onClose err reconnected
     = [Log LWarn (CloseReason err); Log LWarn ConnectionLost; Reconnect (-1) 1000] ++ rest
     ∧ reconnectsOf rest = []) ∧
  onError err = [Log LError (SomethingWentWrong err)] ∧
  (exitCode st = None →
     step' st (EvClose err reconnected) = (st, onClose err reconnected) ∧
     step' st (EvError err) = (st, [Log LError (SomethingWentWrong err)])) ∧
  (∃ n, (n ≤ closes evs)%nat ∧ reconnectsOf (run' st evs).2 = repeat (-1, 1000) n) ∧
  (exitCode (run' st evs).1 = None →
     reconnectsOf (run' st evs).2 = repeat (-1, 1000) (closes evs)).
Proof.
  split; [eexists; split; [reflexivity|by destruct reconnected]|].
  split; [done|].
  split; [intros Halive; unfold step; by rewrite Halive|].
  split; [apply run_reconnects_bound|apply run_reconnects_alive].
Qed.

End EventLoop.

Lemma close_reconnects_without_limit_witness :
  reconnectsOf
    (run tenMinutes bot messageResolves moveResolves initialState
       [EvClose "ECONNRESET" true; EvError "timeout"; EvClose "ECONNRESET" false]).2
  = repeat (-1, 1000) 2 ∧
  step tenMinutes bot messageResolves moveResolves initialState (EvError "timeout")
  = (initialState, [Log LError (SomethingWentWrong "timeout")]).
Proof.
  destruct (close_reconnects_without_limit tenMinutes bot messageResolves moveResolves
              initialState
              [EvClose "ECONNRESET" true; EvError "timeout"; EvClose "ECONNRESET" false]
              "timeout" true) as (_ & _ & Hstep & _ & Hrun).
  split.
  - apply Hrun. reflexivity.
  - apply Hstep. reflexivity.
Defined.

(** ** The life of a registry entry *)

Section EntryLifecycle.

Variable config : Config.
Variable me : string.
Variable message : Client -> Notice -> Outcome.
Variable move : Client -> string -> Outcome.

Local Abbreviation step' := (step config me message move).
Local Abbreviation run' := (run config me message move).

(** What a text message does to the entry of [k]. *)
Lemma onTextMessage_lookup (now : Z) (e : TextMessage) (st : State) (k : string) :
  protectedUsers (onTextMessage me message now e st).1 !! k =
  if reacts me e && String.prefix "!stop" (msg e) && bool_decide (clid (invoker e) = k)
  then Some (now + 10800000)
  else protectedUsers st !! k.
Proof.
  unfold onTextMessage, addHours.
  destruct (reacts me e); [|done].
  destruct (String.prefix "!stop" (msg e)); [|done].
  cbn [fst setProtectedUsers protectedUsers andb].
  case_bool_decide as Hk.
  - subst k. by rewrite lookup_insert_eq.
  - by rewrite lookup_insert_ne.
Qed.

(** An entry appears only through the command handler. *)
Lemma step_inserts (st : State) (ev : Event) (k : string) :
  protectedUsers st !! k = None →
  is_Some (protectedUsers (step' st ev).1 !! k) →
  ∃ now e, ev = EvTextMessage now e ∧ clid (invoker e) = k ∧
           reacts me e = true ∧ String.prefix "!stop" (msg e) = true ∧
           protectedUsers (step' st ev).1 !! k = Some (now + 10800000).
Proof.
  intros Hnone Hsome. unfold step in *.
  destruct (exitCode st); [cbn [fst] in Hsome; rewrite Hnone in Hsome; by destruct Hsome|].
  destruct ev as [err r|now e|now c|c|err|now clients lobby]; cbn [fst] in *;
    try (rewrite Hnone in Hsome; by destruct Hsome).
  - rewrite onTextMessage_lookup in *.
    destruct (reacts me e) eqn:Hr; [|rewrite Hnone in Hsome; by destruct Hsome].
    destruct (String.prefix "!stop" (msg e)) eqn:Hp;
      [|rewrite Hnone in Hsome; by destruct Hsome].
    cbn [andb] in *. case_bool_decide as Hk; [|rewrite Hnone in Hsome; by destruct Hsome].
    by exists now, e.
  - rewrite onInterval_registry, purgeExpired_lookup, Hnone in Hsome. by destruct Hsome.
Qed.

(** An entry disappears only in the purge of a timer cycle whose [now] is
    after its expiry. *)
Lemma step_removes (st : State) (ev : Event) (k : string) (v : Z) :
  protectedUsers st !! k = Some v →
  protectedUsers (step' st ev).1 !! k = None →
  ∃ now clients lobby, ev = EvInterval now clients lobby ∧ v < now.
Proof.
  intros Hsome Hnone. unfold step in *.
  destruct (exitCode st); [cbn [fst] in Hnone; congruence|].
  destruct ev as [err r|now e|now c|c|err|now clients lobby]; cbn [fst] in *;
    try congruence.
  - rewrite onTextMessage_lookup in Hnone.
    destruct (reacts me e && String.prefix "!stop" (msg e)
              && bool_decide (clid (invoker e) = k)); congruence.
  - rewrite onInterval_registry, purgeExpired_lookup, Hsome in Hnone.
    destruct (expired now v) eqn:He; [|done].
    apply expired_true in He. by exists now, clients, lobby.
Qed.

(** Events that spare the entry leave it as it is. *)
Lemma step_spares (st : State) (ev : Event) (k : string) (v : Z) :
  sparesEntry k v ev →
  protectedUsers st !! k = Some v →
  protectedUsers (step' st ev).1 !! k = Some v.
Proof.
  intros Hsp Hsome. unfold step.
  destruct (exitCode st); [done|].
  destruct ev as [err r|now e|now c|c|err|now clients lobby]; cbn [fst sparesEntry] in *;
    try done.
  - rewrite onTextMessage_lookup. rewrite bool_decide_false by done.
    by rewrite andb_false_r.
  - rewrite onInterval_registry, purgeExpired_lookup, Hsome.
    by apply expired_false in Hsp as ->.
Qed.

Lemma run_spares (evs : list Event) (k : string) (v : Z) :
  ∀ st, Forall (sparesEntry k v) evs →
        protectedUsers st !! k = Some v →
        protectedUsers (run' st evs).1 !! k = Some v.
Proof.
  induction evs as [|ev evs IH]; intros st Hall Hsome; [done|].
  apply Forall_cons in Hall as [Hev Hall].
  cbn [run fst]. apply IH; [done|]. by apply step_spares.
Qed.

(** C10: over any events, an entry comes into the registry only by the
    command handler (a message with the prefix that passes the filter,
    from the identity itself) and goes out of it only in the purge of a timer
    cycle whose [now] is after its expiry; a disconnect changes nothing, and
    through any events other than messages of the holder and such cycles the
    entry stays as it is. *)
Theorem entries_inserted_by_command_removed_by_purge (st : State) (ev : Event)
    (evs : list Event) (client : Client) (k : string) (v : Z) :
  (protectedUsers st !! k = None →
   is_Some (protectedUsers (step' st ev).1 !! k) →
   ∃ now e, ev = EvTextMessage now e ∧ clid (invoker e) = k ∧
            reacts me e = true ∧ String.prefix "!stop" (msg e) = true ∧
            protectedUsers (step' st ev).1 !! k = Some (now + 10800000)) ∧
  (protectedUsers st !! k = Some v →
   protectedUsers (step' st ev).1 !! k = None →
   ∃ now clients lobby, ev = EvInterval now clients lobby ∧ v < now) ∧
  step' st (EvClientDisconnect client) = (st, []) ∧
  (Forall (sparesEntry k v) evs →
   protectedUsers st !! k = Some v →
   protectedUsers (run' st evs).1 !! k = Some v) ∧
  (∀ now clients lobby,
     exitCode st = None → protectedUsers st !! k = Some v → v < now →
     protectedUsers (step' st (EvInterval now clients lobby)).1 !! k = None).
Proof.
  split; [apply step_inserts|]. split; [apply step_removes|].
  split; [unfold step; by destruct (exitCode st)|].
  split; [apply run_spares|].
  intros now clients lobby Halive Hsome Hlt. unfold step. rewrite Halive.
  rewrite onInterval_registry, purgeExpired_lookup, Hsome.
  by apply expired_true in Hlt as ->.
Qed.

End EntryLifecycle.

(** [alice] asks for protection at 0, disconnects, and two timer cycles run
    before her entry expires: the entry is still there; the cycle after the
    expiry removes it. *)
Lemma entries_inserted_by_command_removed_by_purge_witness :
  protectedUsers
    (run tenMinutes bot messageResolves moveResolves (withRegistry {["7" := 10800000]})
       [EvClientDisconnect alice; EvInterval 10000 [] (Some lobbyChannel);
        EvInterval 10800000 [] (Some lobbyChannel)]).1 !! "7" = Some 10800000 ∧
  protectedUsers
    (step tenMinutes bot messageResolves moveResolves (withRegistry {["7" := 10800000]})
       (EvInterval 10810000 [] (Some lobbyChannel))).1 !! "7" = None.
Proof.
  destruct (entries_inserted_by_command_removed_by_purge tenMinutes bot messageResolves
              moveResolves (withRegistry {["7" := 10800000]})
              (EvClientDisconnect alice)
              [EvClientDisconnect alice; EvInterval 10000 [] (Some lobbyChannel);
               EvInterval 10800000 [] (Some lobbyChannel)]
              alice "7" 10800000) as (_ & _ & _ & Hkeep & Hgone).
  split.
  - apply Hkeep.
    + repeat constructor; simpl; lia.
    + reflexivity.
  - apply Hgone; [reflexivity|reflexivity|lia].
Defined.

(** * Further properties of the handlers *)

(** ** The log of the purge *)

Lemma purge_fold_log (now : Z) (l : list (string * Z)) :
  ∀ acc : gmap string Z * list Effect,
    (foldl (purgeEntry now) acc l).2
    = acc.2 ++ ((λ kv : string * Z, Log LInfo (NoLongerProtected kv.1))
                  <$> filter (λ kv : string * Z, kv.2 < now) l).
Proof.
  induction l as [|kv l IH]; intros acc; simpl.
  - by rewrite app_nil_r.
  - rewrite IH. unfold purgeEntry.
    destruct (expired now kv.2) eqn:He.
    + apply expired_true in He. rewrite filter_cons_True by done.
      cbn [snd]. by rewrite <- app_assoc.
    + apply expired_false in He. rewrite filter_cons_False by lia. done.
Qed.

Lemma NoDup_fst_filter (P : string * Z → Prop) `{!∀ kv, Decision (P kv)}
    (l : list (string * Z)) :
  NoDup l.*1 → NoDup (filter P l).*1.
Proof.
  intros Hnd. eapply sublist_NoDup; [exact Hnd|].
  apply fmap_sublist, sublist_filter.
Qed.

Lemma NoLongerProtected_inj (k k' : string) :
  Log LInfo (NoLongerProtected k) = Log LInfo (NoLongerProtected k') → k = k'.
Proof. by intros [= ->]. Qed.

Lemma purgeExpired_log (now : Z) (m : gmap string Z) :
  (purgeExpired now m).2
  = ((λ kv : string * Z, Log LInfo (NoLongerProtected kv.1))
       <$> filter (λ kv : string * Z, kv.2 < now) (map_to_list m)).
Proof. unfold purgeExpired. by rewrite purge_fold_log. Qed.

(** X1: the purge writes one "no longer protected" line for each entry it
    removes, and nothing else: the lines are those of the entries of the map
    whose expiry is before [now], no identity is logged twice. *)
Theorem purge_logs_each_removal (now : Z) (m : gmap string Z) :
  (purgeExpired now m).2
  = ((λ kv : string * Z, Log LInfo (NoLongerProtected kv.1))
       <$> filter (λ kv : string * Z, kv.2 < now) (map_to_list m)) ∧
  NoDup (purgeExpired now m).2 ∧
  ∀ eff, eff ∈ (purgeExpired now m).2 ↔
         ∃ k v, eff = Log LInfo (NoLongerProtected k) ∧ m !! k = Some v ∧ v < now.
Proof.
  split; [apply purgeExpired_log|]. rewrite purgeExpired_log. split.
  - change (λ kv : string * Z, Log LInfo (NoLongerProtected kv.1))
      with ((λ k, Log LInfo (NoLongerProtected k)) ∘ (fst : string * Z → string)).
    rewrite list_fmap_compose.
    apply NoDup_fmap_2_strong.
    + intros k k' _ _. apply NoLongerProtected_inj.
    + apply NoDup_fst_filter, NoDup_fst_map_to_list.
  - intros eff. rewrite list_elem_of_fmap. split.
    + intros ([k v] & -> & Hin). apply list_elem_of_filter in Hin as [Hlt Hin].
      apply elem_of_map_to_list in Hin. by exists k, v.
    + intros (k & v & -> & Hk & Hlt). exists (k, v). split; [done|].
      apply list_elem_of_filter. split; [done|]. by apply elem_of_map_to_list.
Qed.

(** ** Purging twice *)

Lemma filter_none {A} (P : A → Prop) `{!∀ x, Decision (P x)} (l : list A) :
  (∀ x, x ∈ l → ¬ P x) → filter P l = [].
Proof.
  induction l as [|x l IH]; intros Hall; [done|].
  rewrite filter_cons_False by (apply Hall, list_elem_of_here).
  apply IH. intros y Hy. apply Hall. by apply list_elem_of_further.
Qed.

(** X2: a purge after a purge is the purge at the later of the two
    instants; a second purge at the same or an earlier instant removes
    nothing and logs nothing, and a purge only ever shrinks the map. *)
Theorem purge_twice (now now' : Z) (m : gmap string Z) :
  (purgeExpired now' (purgeExpired now m).1).1 = (purgeExpired (Z.max now now') m).1 ∧
  (now' ≤ now →
   purgeExpired now' (purgeExpired now m).1 = ((purgeExpired now m).1, [])) ∧
  (purgeExpired now m).1 ⊆ m.
Proof.
  split; [|split].
  - apply map_eq. intros k. rewrite !purgeExpired_lookup.
    destruct (m !! k) as [v|]; [|done].
    destruct (expired now v) eqn:H1; destruct (expired (Z.max now now') v) eqn:H2;
      try destruct (expired now' v) eqn:H3;
      rewrite ?expired_true, ?expired_false in *; try done; lia.
  - intros Hle. apply injective_projections.
    + cbn [fst]. apply map_eq. intros k. rewrite !purgeExpired_lookup.
      destruct (m !! k) as [v|]; [|done].
      destruct (expired now v) eqn:H1; [done|].
      destruct (expired now' v) eqn:H3; [|done].
      rewrite ?expired_true, ?expired_false in *. lia.
    + cbn [snd]. rewrite purgeExpired_log, filter_none; [done|].
      intros [k v] Hin. apply elem_of_map_to_list in Hin.
      rewrite purgeExpired_lookup in Hin.
      destruct (m !! k) as [v'|]; [|done].
      destruct (expired now v') eqn:H1; [done|].
      inversion Hin; subst. apply expired_false in H1. simpl. lia.
  - rewrite purgeExpired_filter. apply map_filter_subseteq.
Qed.

Lemma purge_twice_witness :
  purgeExpired 5 (purgeExpired 10 {["7" := 3; "8" := 20]}).1
  = ((purgeExpired 10 {["7" := 3; "8" := 20]}).1, []).
Proof.
  apply (proj1 (proj2 (purge_twice 10 5 {["7" := 3; "8" := 20]}))). lia.
Defined.

(** ** The loop over the clients *)

Lemma messagesOf_app (l1 l2 : list Effect) :
  messagesOf (l1 ++ l2) = messagesOf l1 ++ messagesOf l2.
Proof. apply flat_map_app. Qed.

Lemma messagesOf_trySendMessage (message : Client -> Notice -> Outcome)
    (client : Client) (text : Notice) :
  messagesOf (trySendMessage message client text) = [(client, text)].
Proof. unfold trySendMessage. simpl. by destruct (message client text). Qed.

Section Loop.

Variable config : Config.
Variable message : Client -> Notice -> Outcome.
Variable move : Client -> string -> Outcome.
Variable lobby : Channel.
Variable m : gmap string Z.

Local Abbreviation loop := (moveIdleClients config message move lobby m).

(** X3: the loop does nothing at all, not even log, exactly when every
    client of the list is in the lobby or not idle beyond the threshold; in
    particular a cycle over clients that are all in the lobby already is
    silent. *)
Theorem loop_silent_iff (clients : list Client) :
  loop clients = [] ↔
  ∀ c, c ∈ clients →
       cid c = channel_cid lobby ∨ idleTime c ≤ idletime config * 60 * 1000.
Proof.
  induction clients as [|c rest IH].
  - split; [|done]. intros _ c Hc. by apply elem_of_nil in Hc.
  - cbn [moveIdleClients]. unfold idleThreshold.
    destruct (String.eqb_spec (cid c) (channel_cid lobby)) as [Heq|Hne]; cbn [negb].
    + rewrite IH. split.
      * intros H c' [->|Hc']%elem_of_cons; [by left|by apply H].
      * intros H c' Hc'. apply H. by apply list_elem_of_further.
    + destruct (Z.gtb_spec (idleTime c) (idletime config * 60 * 1000)) as [Hgt|Hle].
      * split.
        -- destruct (has m (clid c)); discriminate.
        -- intros H. destruct (H c (list_elem_of_here _ _)) as [?|?]; [done|lia].
      * rewrite IH. split.
        -- intros H c' [->|Hc']%elem_of_cons; [by right|by apply H].
        -- intros H c' Hc'. apply H. by apply list_elem_of_further.
Qed.

(** The notifications of the loop are those of its moves. *)
Lemma loop_messages (clients : list Client) :
  messagesOf (loop clients)
  = (λ p : Client * string, (p.1, IdleNotice (nickname p.1))) <$> movesOf (loop clients).
Proof.
  induction clients as [|c rest IH]; [done|].
  cbn [moveIdleClients].
  destruct (negb (cid c =? channel_cid lobby)%string); [|done].
  destruct (idleTime c >? idleThreshold config); [|done].
  destruct (has m (clid c)); [done|].
  change (messagesOf (?x :: ?l)) with (messagesOf l) at 1.
  rewrite movesOf_log, messagesOf_app, movesOf_app,
    messagesOf_trySendMessage, movesOf_trySendMessage, movesOf_move.
  cbn [app fmap list_fmap fst]. f_equal.
  destruct (move c (channel_cid lobby)); [exact IH|done|done].
Qed.

(** In the loop, what stands before a [client.move] holds the notification
    of that client. *)
Lemma loop_notifies_first (clients : list Client) :
  ∀ pre c to post,
    loop clients = pre ++ Move c to :: post →
    Message c (IdleNotice (nickname c)) ∈ pre.
Proof.
  induction clients as [|c' rest IH]; intros pre c to post Heq.
  - by destruct pre.
  - cbn [moveIdleClients] in Heq.
    destruct (negb (cid c' =? channel_cid lobby)%string); [|by eapply IH].
    destruct (idleTime c' >? idleThreshold config); [|by eapply IH].
    destruct (has m (clid c')).
    { destruct pre as [|p pre]; [done|]. injection Heq as <- Heq.
      apply list_elem_of_further. by eapply IH. }
    unfold trySendMessage in Heq. cbn [app] in Heq.
    destruct pre as [|p1 pre]; [done|]. injection Heq as <- Heq.
    destruct pre as [|p2 pre]; [done|]. injection Heq as <- Heq.
    destruct pre as [|p3 pre]; [done|]. injection Heq as <- Heq.
    assert (∀ pre' tail,
              Move c' (channel_cid lobby) :: tail = pre' ++ Move c to :: post →
              (tail = moveIdleClients config message move lobby m rest ∨
               ∃ err, tail = [UnhandledRejection err]) →
              Message c' (IdleNotice (nickname c')) = Message c (IdleNotice (nickname c)) ∨
              Message c (IdleNotice (nickname c)) ∈ pre') as Hmove.
    { intros pre' tail Heq' Htail.
      destruct pre' as [|p pre'].
      - injection Heq' as -> _ _. by left.
      - injection Heq' as <- Heq'. right. apply list_elem_of_further.
        destruct Htail as [->|[err ->]]; [by eapply IH|].
        destruct pre' as [|p pre']; [done|]. injection Heq' as _ Heq'. by destruct pre'. }
    do 2 apply list_elem_of_further.
    destruct (message c' (IdleNotice (nickname c'))); cbn [app] in Heq.
    + apply Hmove in Heq as [Hm|Hin].
      * rewrite Hm. apply list_elem_of_here.
      * by apply list_elem_of_further.
      * destruct (move c' (channel_cid lobby)); eauto.
    + destruct pre as [|p4 pre]; [done|]. injection Heq as <- Heq.
      apply Hmove in Heq as [Hm|Hin].
      * rewrite Hm. apply list_elem_of_here.
      * by do 2 apply list_elem_of_further.
      * destruct (move c' (channel_cid lobby)); eauto.
    + destruct pre as [|p4 pre]; [done|]. injection Heq as <- Heq.
      apply Hmove in Heq as [Hm|Hin].
      * rewrite Hm. apply list_elem_of_here.
      * by do 2 apply list_elem_of_further.
      * destruct (move c' (channel_cid lobby)); eauto.
Qed.

(** A selected client whose [client.move] fails ends the loop. *)
Lemma loop_stops_at_failed_move (pre : list Client) (c : Client) (rest : list Client) :
  selectedForMove config lobby m c = true →
  move c (channel_cid lobby) ≠ Resolves →
  loop (pre ++ c :: rest) = loop (pre ++ [c]).
Proof.
  intros Hsel Hfail. induction pre as [|c' pre IH].
  - unfold selectedForMove in Hsel. cbn [app moveIdleClients].
    destruct (negb (cid c =? channel_cid lobby)%string); [|done].
    destruct (idleTime c >? idleThreshold config); [|done].
    destruct (has m (clid c)); [done|].
    by destruct (move c (channel_cid lobby)).
  - cbn [app moveIdleClients]. rewrite IH. reflexivity.
Qed.

End Loop.

(** ** One timer cycle *)

Lemma elem_of_messagesOf (effs : list Effect) (c : Client) (text : Notice) :
  (c, text) ∈ messagesOf effs ↔ Message c text ∈ effs.
Proof.
  induction effs as [|eff effs IH]; simpl.
  - by rewrite !elem_of_nil.
  - rewrite elem_of_app, IH, elem_of_cons.
    destruct eff; simpl; rewrite ?elem_of_nil, ?list_elem_of_singleton;
      split; intros [H|H]; try done; try (by right); try (by inversion H).
    + inversion H; subst. by left.
    + inversion H; subst. by left.
Qed.

Lemma messagesOf_purgeExpired (now : Z) (m : gmap string Z) :
  messagesOf (purgeExpired now m).2 = [].
Proof.
  rewrite purgeExpired_log.
  induction (filter (λ kv : string * Z, kv.2 < now) (map_to_list m)); done.
Qed.

Lemma movesOf_purgeExpired (now : Z) (m : gmap string Z) :
  movesOf (purgeExpired now m).2 = [].
Proof. unfold purgeExpired. by rewrite movesOf_purge_fold. Qed.

(** A [client.move] in [l1 ++ l2] lies in [l2] when [l1] has none. *)
Lemma move_after_moveless (l1 l2 pre post : list Effect) (c : Client) (to : string) :
  movesOf l1 = [] →
  l1 ++ l2 = pre ++ Move c to :: post →
  ∃ pre', pre = l1 ++ pre' ∧ l2 = pre' ++ Move c to :: post.
Proof.
  revert pre. induction l1 as [|eff l1 IH]; intros pre Hnone Heq.
  - by exists pre.
  - destruct pre as [|p pre].
    + injection Heq as -> _. discriminate.
    + injection Heq as <- Heq.
      destruct (IH pre) as (pre' & -> & ->); [|done|by exists pre'].
      destruct eff; try done.
Qed.

Section Cycle.

Variable config : Config.
Variable message : Client -> Notice -> Outcome.
Variable move : Client -> string -> Outcome.
Variable now : Z.
Variable st : State.

Local Abbreviation cycle clients lobby :=
  (onInterval config message move now clients lobby st).

Lemma cycle_head_moveless :
  movesOf ([Log LDebug CheckingProtection;
            Log LDebug (CurrentProtectionList (formatProtectedUsers (protectedUsers st)))]
           ++ (purgeExpired now (protectedUsers st)).2 ++ [Log LDebug CheckingIdle]) = [].
Proof. by rewrite !movesOf_app, movesOf_purgeExpired. Qed.

Lemma messagesOf_cycle (clients : list Client) (lobby : option Channel) :
  messagesOf (cycle clients lobby).2 =
  match lobby with
  | Some lobby =>
    messagesOf (moveIdleClients config message move lobby
                  (purgeExpired now (protectedUsers st)).1 clients)
  | None => []
  end.
Proof.
  unfold onInterval.
  destruct lobby as [lobby|]; cbn [snd];
    rewrite !messagesOf_app, messagesOf_purgeExpired; reflexivity.
Qed.

(** X4: in a timer cycle no client is moved before it has been sent the
    idle notice carrying its own nickname, and the notices of the cycle are
    exactly those of the clients it moves, in the same order: nobody is
    notified and then left where it is, whatever becomes of the notice. *)
Theorem notification_precedes_move (clients : list Client) (lobby : option Channel) :
  (∀ pre c to post,
     (cycle clients lobby).2 = pre ++ Move c to :: post →
     Message c (IdleNotice (nickname c)) ∈ pre) ∧
  messagesOf (cycle clients lobby).2
  = (λ p : Client * string, (p.1, IdleNotice (nickname p.1)))
      <$> movesOf (cycle clients lobby).2.
Proof.
  split.
  - intros pre c to post Heq. unfold onInterval in Heq.
    destruct lobby as [lobby|]; cbn [snd] in Heq.
    + apply move_after_moveless in Heq as (pre' & -> & Hloop);
        [|apply cycle_head_moveless].
      apply elem_of_app. right. by eapply loop_notifies_first.
    + apply move_after_moveless in Heq as (pre' & -> & Hloop);
        [|apply cycle_head_moveless].
      destruct pre' as [|p1 pre']; [done|]. injection Hloop as _ Hloop.
      destruct pre' as [|p2 pre']; [done|]. injection Hloop as _ Hloop.
      by destruct pre'.
  - rewrite messagesOf_cycle, movesOf_onInterval.
    destruct lobby as [lobby|]; [apply loop_messages|done].
Qed.

(** X5: when [client.move] fails for a client the cycle has selected, the
    cycle ends there: the clients listed after it are neither examined,
    notified nor moved, so the outcome of the cycle is that of the list cut
    after the failing client. *)
Theorem failed_move_ends_cycle (pre : list Client) (c : Client) (rest : list Client)
    (lobby : Channel) :
  cid c ≠ channel_cid lobby →
  idleTime c > idletime config * 60 * 1000 →
  has (purgeExpired now (protectedUsers st)).1 (clid c) = false →
  move c (channel_cid lobby) ≠ Resolves →
  cycle (pre ++ c :: rest) (Some lobby) = cycle (pre ++ [c]) (Some lobby).
Proof.
  intros Ha Hb Hc Hfail. unfold onInterval.
  rewrite (loop_stops_at_failed_move config message move lobby _ pre c rest); [done| |done].
  by apply selectedForMove_true.
Qed.

End Cycle.

Lemma failed_move_ends_cycle_witness :
  onInterval tenMinutes messageResolves moveRejects 0 ([bob] ++ alice :: [carol])
    (Some lobbyChannel) initialState
  = onInterval tenMinutes messageResolves moveRejects 0 ([bob] ++ [alice])
      (Some lobbyChannel) initialState.
Proof.
  apply (failed_move_ends_cycle tenMinutes messageResolves moveRejects 0 initialState
           [bob] alice [carol] lobbyChannel).
  - discriminate.
  - reflexivity.
  - reflexivity.
  - discriminate.
Defined.

(** ** The command handler *)

Lemma elem_of_formatProtectedUsers (m : gmap string Z) (k : string) :
  k ∈ formatProtectedUsers m ↔ has m k = true.
Proof.
  unfold formatProtectedUsers. rewrite list_elem_of_fmap, has_true. split.
  - intros ([k' v] & -> & Hin). apply elem_of_map_to_list in Hin. by exists v.
  - intros [v Hv]. exists (k, v). split; [done|]. by apply elem_of_map_to_list.
Qed.

(** X6: a text message changes no entry but the sender's and removes none;
    the acknowledgement goes to the sender, once, exactly when the message
    passes the filter and starts with the prefix; the handler moves
    nobody. *)
Theorem text_message_touches_only_sender (me : string)
    (message : Client -> Notice -> Outcome) (now : Z) (e : TextMessage) (st : State) :
  (∀ k, k ≠ clid (invoker e) →
        protectedUsers (onTextMessage me message now e st).1 !! k
        = protectedUsers st !! k) ∧
  (∀ k, is_Some (protectedUsers st !! k) →
        is_Some (protectedUsers (onTextMessage me message now e st).1 !! k)) ∧
  messagesOf (onTextMessage me message now e st).2
  = (if reacts me e && String.prefix "!stop" (msg e)
     then [(invoker e, ProtectionAck)] else []) ∧
  movesOf (onTextMessage me message now e st).2 = [].
Proof.
  unfold onTextMessage.
  destruct (reacts me e); [|by repeat split].
  destruct (String.prefix "!stop" (msg e)); [|by repeat split].
  cbn [fst snd andb setProtectedUsers protectedUsers exitCode].
  split; [intros k Hk; by rewrite lookup_insert_ne|].
  split.
  { intros k Hk. destruct (decide (clid (invoker e) = k)) as [->|Hne].
    - rewrite lookup_insert_eq. by eexists.
    - by rewrite lookup_insert_ne. }
  split.
  - change (messagesOf (?a :: ?b :: ?c :: ?l)) with (messagesOf l).
    apply messagesOf_trySendMessage.
  - change (movesOf (?a :: ?b :: ?c :: ?l)) with (movesOf l).
    apply movesOf_trySendMessage.
Qed.

(** X11: the list logged after a grant names every identity of the new
    registry once: the sender and the identities that were there before. *)
Theorem protection_list_after_grant (me : string)
    (message : Client -> Notice -> Outcome) (now : Z) (e : TextMessage) (st : State)
    (ks : list string) :
  Log LInfo (NewProtectionList ks) ∈ (onTextMessage me message now e st).2 →
  NoDup ks ∧
  ∀ k, k ∈ ks ↔ k = clid (invoker e) ∨ has (protectedUsers st) k = true.
Proof.
  unfold onTextMessage.
  destruct (reacts me e); [|by intros ?%elem_of_nil].
  destruct (String.prefix "!stop" (msg e)).
  2:{ cbn [snd]. intros Hin%list_elem_of_singleton. discriminate. }
  cbn [snd app]. unfold trySendMessage.
  intros Hin. repeat (apply elem_of_cons in Hin as [Heq|Hin]; [try discriminate|]).
  - injection Heq as ->. split.
    + apply NoDup_fst_map_to_list.
    + intros k. rewrite elem_of_formatProtectedUsers, !has_true.
      destruct (decide (clid (invoker e) = k)) as [->|Hne].
      * rewrite lookup_insert_eq. split; [by left|by eexists].
      * rewrite lookup_insert_ne by done. split; [by right|].
        intros [->|H]; done.
  - destruct (message (invoker e) ProtectionAck);
      repeat (apply elem_of_cons in Hin as [Heq|Hin]; [discriminate|]);
      by apply elem_of_nil in Hin.
Qed.

Lemma protection_list_after_grant_witness :
  NoDup (formatProtectedUsers (<["7" := 10800000]> {["8" := 5]})) ∧
  ∀ k, k ∈ formatProtectedUsers (<["7" := 10800000]> {["8" := 5]})
       ↔ k = "7" ∨ has {["8" := 5]} k = true.
Proof.
  refine (protection_list_after_grant bot messageResolves 0 (stopFrom CLIENT alice)
            (withRegistry {["8" := 5]})
            (formatProtectedUsers (<["7" := 10800000]> {["8" := 5]})) _).
  do 2 apply list_elem_of_further. apply list_elem_of_here.
Defined.

(** ** Protection from the request to the sweep *)

(** X7: once a client's request has been accepted at [t], no timer cycle
    with [now ≤ t + 3 h] moves or notifies it, however long it has been idle
    and whatever happened in between, as long as it sent no further message
    and no cycle ran after that instant. *)
Theorem granted_client_is_not_moved (config : Config) (me : string)
    (message : Client -> Notice -> Outcome) (move : Client -> string -> Outcome)
    (t : Z) (e : TextMessage) (st : State) (evs : list Event)
    (now : Z) (clients : list Client) (lobby : option Channel) (c : Client) :
  reacts me e = true → String.prefix "!stop" (msg e) = true →
  clid c = clid (invoker e) →
  Forall (sparesEntry (clid c) (t + 10800000)) evs →
  now ≤ t + 10800000 →
  (∀ to, Move c to
     ∉ (onInterval config message move now clients lobby
          (run config me message move (onTextMessage me message t e st).1 evs).1).2) ∧
  (∀ text, Message c text
     ∉ (onInterval config message move now clients lobby
          (run config me message move (onTextMessage me message t e st).1 evs).1).2).
Proof.
  intros Hr Hp Hc Hsp Hnow.
  set (st' := (run config me message move (onTextMessage me message t e st).1 evs).1).
  assert (protectedUsers st' !! clid c = Some (t + 10800000)) as Hentry.
  { apply run_spares; [done|].
    rewrite onTextMessage_grant by done. rewrite Hc. apply lookup_insert_eq. }
  assert (∀ to, Move c to ∉ (onInterval config message move now clients lobby st').2)
    as Hmoves.
  { intros to Hin. destruct lobby as [lobby|].
    - apply cycle_move_sound in Hin as (_ & _ & _ & _ & Hhas).
      rewrite onInterval_registry in Hhas.
      assert (has (purgeExpired now (protectedUsers st')).1 (clid c) = true) as Htrue
        by (apply has_purged; by eexists).
      congruence.
    - apply elem_of_movesOf in Hin. rewrite movesOf_onInterval in Hin.
      by apply elem_of_nil in Hin. }
  split; [done|].
  intros text Hin. apply elem_of_messagesOf in Hin.
  rewrite messagesOf_cycle in Hin. destruct lobby as [lobby|];
    [|by apply elem_of_nil in Hin].
  rewrite loop_messages in Hin.
  apply list_elem_of_fmap in Hin as ([c' to] & [= <- _] & Hin).
  apply (Hmoves to). apply elem_of_movesOf. by rewrite movesOf_onInterval.
Qed.

Lemma granted_client_is_not_moved_witness :
  (∀ to, Move alice to
     ∉ (onInterval tenMinutes messageResolves moveResolves 10800000 [alice; bob]
          (Some lobbyChannel)
          (run tenMinutes bot messageResolves moveResolves
             (onTextMessage bot messageResolves 0 (stopFrom CLIENT alice) initialState).1
             [EvClientDisconnect alice; EvInterval 600000 [alice] (Some lobbyChannel)]).1).2) ∧
  (∀ text, Message alice text
     ∉ (onInterval tenMinutes messageResolves moveResolves 10800000 [alice; bob]
          (Some lobbyChannel)
          (run tenMinutes bot messageResolves moveResolves
             (onTextMessage bot messageResolves 0 (stopFrom CLIENT alice) initialState).1
             [EvClientDisconnect alice; EvInterval 600000 [alice] (Some lobbyChannel)]).1).2).
Proof.
  apply (granted_client_is_not_moved tenMinutes bot messageResolves moveResolves 0
           (stopFrom CLIENT alice) initialState
           [EvClientDisconnect alice; EvInterval 600000 [alice] (Some lobbyChannel)]
           10800000 [alice; bob] (Some lobbyChannel) alice).
  - reflexivity.
  - reflexivity.
  - reflexivity.
  - repeat constructor; simpl; lia.
  - lia.
Defined.

(** ** Runs of events *)

Lemma insertsOf_app (l1 l2 : list Effect) :
  insertsOf (l1 ++ l2) = insertsOf l1 ++ insertsOf l2.
Proof. apply flat_map_app. Qed.

Lemma insertsOf_trySendMessage (message : Client -> Notice -> Outcome)
    (client : Client) (text : Notice) :
  insertsOf (trySendMessage message client text) = [].
Proof. unfold trySendMessage. simpl. by destruct (message client text). Qed.

Lemma insertsOf_purgeExpired (now : Z) (m : gmap string Z) :
  insertsOf (purgeExpired now m).2 = [].
Proof.
  rewrite purgeExpired_log.
  induction (filter (λ kv : string * Z, kv.2 < now) (map_to_list m)); done.
Qed.

Lemma insertsOf_cons (eff : Effect) (effs : list Effect) :
  insertsOf (eff :: effs) = insertsOf [eff] ++ insertsOf effs.
Proof. unfold insertsOf. simpl. by rewrite app_nil_r. Qed.

Lemma insertsOf_moveIdleClients (config : Config)
    (message : Client -> Notice -> Outcome) (move : Client -> string -> Outcome)
    (lobby : Channel) (m : gmap string Z) (clients : list Client) :
  insertsOf (moveIdleClients config message move lobby m clients) = [].
Proof.
  induction clients as [|c rest IH]; [done|].
  cbn [moveIdleClients].
  destruct (negb (cid c =? channel_cid lobby)%string); [|done].
  destruct (idleTime c >? idleThreshold config); [|done].
  destruct (has m (clid c)); [by rewrite insertsOf_cons|].
  rewrite insertsOf_cons, insertsOf_app, insertsOf_trySendMessage.
  rewrite (insertsOf_cons (Move _ _)).
  by destruct (move c (channel_cid lobby)).
Qed.

Lemma exitsOf_app (l1 l2 : list Effect) :
  exitsOf (l1 ++ l2) = exitsOf l1 ++ exitsOf l2.
Proof. apply flat_map_app. Qed.

Lemma elem_of_exitsOf (effs : list Effect) (code : Z) :
  code ∈ exitsOf effs ↔ Exit code ∈ effs.
Proof.
  induction effs as [|eff effs IH]; simpl.
  - by rewrite !elem_of_nil.
  - rewrite elem_of_app, IH, elem_of_cons.
    destruct eff; simpl; rewrite ?elem_of_nil, ?list_elem_of_singleton;
      split; intros [H|H]; try done; try (by right); try (by inversion H).
    + subst. by left.
    + inversion H; subst. by left.
Qed.

Lemma exitsOf_trySendMessage (message : Client -> Notice -> Outcome)
    (client : Client) (text : Notice) :
  exitsOf (trySendMessage message client text) = [].
Proof. unfold trySendMessage. simpl. by destruct (message client text). Qed.

Lemma exitsOf_purgeExpired (now : Z) (m : gmap string Z) :
  exitsOf (purgeExpired now m).2 = [].
Proof.
  rewrite purgeExpired_log.
  induction (filter (λ kv : string * Z, kv.2 < now) (map_to_list m)); done.
Qed.

Lemma exitsOf_cons (eff : Effect) (effs : list Effect) :
  exitsOf (eff :: effs) = exitsOf [eff] ++ exitsOf effs.
Proof. unfold exitsOf. simpl. by rewrite app_nil_r. Qed.

Lemma exitsOf_moveIdleClients (config : Config)
    (message : Client -> Notice -> Outcome) (move : Client -> string -> Outcome)
    (lobby : Channel) (m : gmap string Z) (clients : list Client) :
  exitsOf (moveIdleClients config message move lobby m clients) = [].
Proof.
  induction clients as [|c rest IH]; [done|].
  cbn [moveIdleClients].
  destruct (negb (cid c =? channel_cid lobby)%string); [|done].
  destruct (idleTime c >? idleThreshold config); [|done].
  destruct (has m (clid c)); [by rewrite exitsOf_cons|].
  rewrite exitsOf_cons, exitsOf_app, exitsOf_trySendMessage.
  rewrite (exitsOf_cons (Move _ _)).
  by destruct (move c (channel_cid lobby)).
Qed.

Section Runs.

Variable config : Config.
Variable me : string.
Variable message : Client -> Notice -> Outcome.
Variable move : Client -> string -> Outcome.

Local Abbreviation step' := (step config me message move).
Local Abbreviation run' := (run config me message move).

(** The one handler that ends the process. *)
Lemma step_exitCode (st : State) (ev : Event) :
  exitCode st = None →
  exitCode (step' st ev).1 = if lobbyMissing ev then Some 1 else None.
Proof.
  intros Halive. unfold step. rewrite Halive.
  destruct ev as [err r|now e|now c|c|err|now clients [lobby|]]; cbn [fst lobbyMissing];
    try done.
  unfold onTextMessage. destruct (reacts me e); [|done].
  by destruct (String.prefix "!stop" (msg e)).
Qed.

(** The cycle that does not find the lobby ends in [exit(1)], its one call
    of [exit]. *)
Lemma step_missing_lobby (st : State) (ev : Event) :
  exitCode st = None → lobbyMissing ev = true →
  ∃ effs, (step' st ev).2 = effs ++ [Exit 1] ∧ exitsOf effs = [].
Proof.
  intros Halive Hmiss. unfold step. rewrite Halive.
  destruct ev as [err r|now e|now c|c|err|now clients [lobby|]]; try done.
  unfold onInterval. cbn [snd].
  eexists (_ ++ [Log LError UnableToFindLobby]). split.
  - exact (app_assoc _ [Log LError UnableToFindLobby] [Exit 1]).
  - by rewrite !exitsOf_app, exitsOf_purgeExpired.
Qed.

(** No other handler calls [exit]. *)
Lemma exitsOf_step_other (st : State) (ev : Event) :
  lobbyMissing ev = false → exitsOf (step' st ev).2 = [].
Proof.
  intros Hmiss. unfold step. destruct (exitCode st); [done|].
  destruct ev as [err r|now e|now c|c|err|now clients [lobby|]]; cbn [snd]; try done.
  - by destruct r.
  - unfold onTextMessage. destruct (reacts me e); [|done].
    destruct (String.prefix "!stop" (msg e)); [|done].
    cbn [snd]. apply exitsOf_trySendMessage.
  - unfold onInterval. cbn [snd].
    by rewrite !exitsOf_app, exitsOf_purgeExpired, exitsOf_moveIdleClients.
Qed.

Lemma run_exit_trace (evs : list Event) :
  ∀ st, exitCode st = None →
    (existsb lobbyMissing evs = true →
     ∃ effs, (run' st evs).2 = effs ++ [Exit 1] ∧ exitsOf effs = []) ∧
    (existsb lobbyMissing evs = false → exitsOf (run' st evs).2 = []).
Proof.
  induction evs as [|ev evs IH]; intros st Halive; [by split|].
  cbn [run fst snd existsb].
  pose proof (step_exitCode st ev Halive) as Hstep.
  destruct (lobbyMissing ev) eqn:Hmiss; cbn [orb].
  - split; [intros _|done].
    rewrite run_exited by (rewrite Hstep; by eexists).
    cbn [snd]. rewrite app_nil_r. by apply step_missing_lobby.
  - destruct (IH _ Hstep) as [IH1 IH2]. split.
    + intros Hex. destruct (IH1 Hex) as (effs & -> & Hnone).
      exists ((step' st ev).2 ++ effs). split; [by rewrite app_assoc|].
      by rewrite exitsOf_app, exitsOf_step_other, Hnone.
    + intros Hex. by rewrite exitsOf_app, exitsOf_step_other, IH2.
Qed.

(** X8: the script calls [exit] with code 1 only, and only in a timer
    cycle that did not find the lobby.  In a run that leaves no rejection
    unhandled it does so as soon as there is such a cycle: [exit(1)] is then
    the last thing it does, and its only call of [exit]. *)
Theorem exit_called_only_for_missing_lobby (evs : list Event) :
  ∀ st, exitCode st = None →
    (∀ code, Exit code ∈ (run' st evs).2 →
       code = 1 ∧ ∃ ev, ev ∈ evs ∧ lobbyMissing ev = true) ∧
    (unhandledOf (run' st evs).2 = [] →
     (∃ ev, ev ∈ evs ∧ lobbyMissing ev = true) →
     ∃ effs, (run' st evs).2 = effs ++ [Exit 1] ∧ exitsOf effs = []).
Proof.
  intros st Halive. destruct (run_exit_trace evs st Halive) as [Hyes Hno]. split.
  - intros code Hin. apply elem_of_exitsOf in Hin.
    destruct (existsb lobbyMissing evs) eqn:Hex.
    + destruct (Hyes eq_refl) as (effs & Heq & Hnone).
      rewrite Heq, exitsOf_app, Hnone in Hin. apply list_elem_of_singleton in Hin.
      split; [done|]. apply existsb_exists in Hex as (ev & Hev & Hmiss).
      exists ev. split; [by apply list_elem_of_In|done].
    + rewrite (Hno eq_refl) in Hin. by apply elem_of_nil in Hin.
  - intros _ (ev & Hev & Hmiss). apply Hyes. apply existsb_exists.
    exists ev. split; [by apply list_elem_of_In|done].
Qed.

(** Where an entry of the registry comes from, one event at a time. *)
Lemma step_entry_origin (st : State) (ev : Event) (k : string) (v : Z) :
  protectedUsers (step' st ev).1 !! k = Some v →
  protectedUsers st !! k = Some v ∨
  ∃ now e, ev = EvTextMessage now e ∧ clid (invoker e) = k ∧
           reacts me e = true ∧ String.prefix "!stop" (msg e) = true ∧
           v = now + 10800000.
Proof.
  intros Hafter. unfold step in Hafter.
  destruct (exitCode st); [by left|].
  destruct ev as [err r|now e|now c|c|err|now clients lobby]; cbn [fst] in Hafter;
    try (by left).
  - rewrite onTextMessage_lookup in Hafter.
    destruct (reacts me e) eqn:Hr; [|by left].
    destruct (String.prefix "!stop" (msg e)) eqn:Hp; [|by left].
    cbn [andb] in Hafter. case_bool_decide as Hk; [|by left].
    right. exists now, e. by inversion Hafter.
  - rewrite onInterval_registry, purgeExpired_lookup in Hafter. left.
    destruct (protectedUsers st !! k) as [v'|]; [|done].
    by destruct (expired now v').
Qed.

(** X9: whatever the events, an entry of the registry is either an entry
    the run started with, expiry untouched, or was set by a request of that
    identity in the run, and then its expiry is the instant of that request
    plus three hours: no handler invents or shifts an expiry. *)
Theorem entries_come_from_grants (evs : list Event) :
  ∀ (st : State) (k : string) (v : Z),
    protectedUsers (run' st evs).1 !! k = Some v →
    protectedUsers st !! k = Some v ∨
    ∃ now e, EvTextMessage now e ∈ evs ∧ clid (invoker e) = k ∧
             reacts me e = true ∧ String.prefix "!stop" (msg e) = true ∧
             v = now + 10800000.
Proof.
  induction evs as [|ev evs IH]; intros st k v Hend; [by left|].
  cbn [run fst] in Hend. apply IH in Hend as [Hstep|(now & e & Hin & Hrest)].
  - apply step_entry_origin in Hstep as [Hst|(now & e & -> & Hrest)]; [by left|].
    right. exists now, e. split; [apply list_elem_of_here|done].
  - right. exists now, e. split; [by apply list_elem_of_further|done].
Qed.

(** Only the ["clientconnect"] handler writes to the database. *)
Lemma insertsOf_step (st : State) (ev : Event) :
  insertsOf (step' st ev).2 =
  match exitCode st, ev with
  | None, EvClientConnect t c => [(t, c)]
  | _, _ => []
  end.
Proof.
  unfold step. destruct (exitCode st); [done|].
  destruct ev as [err r|now e|now c|c|err|now clients lobby]; cbn [snd]; try done.
  - by destruct r.
  - unfold onTextMessage. destruct (reacts me e); [|done].
    destruct (String.prefix "!stop" (msg e)); [|done].
    cbn [snd]. apply insertsOf_trySendMessage.
  - unfold onInterval.
    destruct lobby as [lobby|]; cbn [snd];
      rewrite !insertsOf_app, insertsOf_purgeExpired,
        ?insertsOf_moveIdleClients; reflexivity.
Qed.

(** X10: while the process is alive, the rows written to [clientinfo] are
    those of the ["clientconnect"] events, one each and in their order, with
    the time and the client of the event; no other event writes a row. *)
Theorem one_row_per_connect (evs : list Event) :
  ∀ st, exitCode (run' st evs).1 = None →
        insertsOf (run' st evs).2 = connectsOf evs.
Proof.
  induction evs as [|ev evs IH]; intros st Hend; [done|].
  pose proof (run_alive _ _ _ _ _ _ Hend) as Halive.
  cbn [run fst snd] in *.
  rewrite insertsOf_app, (IH _ Hend), insertsOf_step, Halive.
  by destruct ev.
Qed.

End Runs.

Lemma exit_called_only_for_missing_lobby_witness :
  ∃ effs,
    (run tenMinutes bot messageResolves moveResolves initialState
       [EvError "timeout"; EvInterval 0 [alice] None; EvClose "ECONNRESET" true]).2
    = effs ++ [Exit 1] ∧ exitsOf effs = [].
Proof.
  apply (exit_called_only_for_missing_lobby tenMinutes bot messageResolves moveResolves
           [EvError "timeout"; EvInterval 0 [alice] None; EvClose "ECONNRESET" true]
           initialState eq_refl).
  - reflexivity.
  - exists (EvInterval 0 [alice] None). split; [|reflexivity].
    apply list_elem_of_further, list_elem_of_here.
Defined.

Lemma entries_come_from_grants_witness :
  initialState.(protectedUsers) !! "7" = Some 10805000 ∨
  ∃ now e,
    EvTextMessage now e
      ∈ [EvTextMessage 0 (stopFrom CLIENT alice); EvInterval 1000 [] (Some lobbyChannel);
         EvTextMessage 5000 (stopFrom CHANNEL alice)] ∧
    clid (invoker e) = "7" ∧ reacts bot e = true ∧
    String.prefix "!stop" (msg e) = true ∧ 10805000 = now + 10800000.
Proof.
  apply (entries_come_from_grants tenMinutes bot messageResolves moveResolves
           [EvTextMessage 0 (stopFrom CLIENT alice); EvInterval 1000 [] (Some lobbyChannel);
            EvTextMessage 5000 (stopFrom CHANNEL alice)]
           initialState "7" 10805000).
  reflexivity.
Defined.

Lemma one_row_per_connect_witness :
  insertsOf
    (run tenMinutes bot messageResolves moveResolves initialState
       [EvClientConnect 100 alice; EvTextMessage 200 (stopFrom CLIENT alice);
        EvInterval 300 [alice; bob] (Some lobbyChannel); EvClientConnect 400 bob]).2
  = [(100, alice); (400, bob)].
Proof.
  apply (one_row_per_connect tenMinutes bot messageResolves moveResolves
           [EvClientConnect 100 alice; EvTextMessage 200 (stopFrom CLIENT alice);
            EvInterval 300 [alice; bob] (Some lobbyChannel); EvClientConnect 400 bob]
           initialState).
  reflexivity.
Defined.

(** ** The order of the moves *)

Lemma filter_bool_Prop {A} (f : A → bool) (P : A → Prop) `{!∀ x, Decision (P x)}
    (l : list A) :
  (∀ x, f x = true ↔ P x) → List.filter f l = filter P l.
Proof.
  intros Hf. induction l as [|x l IH]; [done|].
  cbn [List.filter]. destruct (f x) eqn:Hx.
  - rewrite filter_cons_True by (by apply Hf). by rewrite IH.
  - rewrite filter_cons_False; [done|].
    intros HP. apply Hf in HP. congruence.
Qed.

(** X12: when, in a cycle, no [client.move] fails and no notification is
    rejected, the cycle moves exactly the clients that are outside the lobby,
    idle for more than [idletime * 60 * 1000] ms and without a registry entry
    whose expiry is at or after [now], in the order of the list the server
    returned, each once per occurrence in that list, all of them into the
    lobby. *)
Theorem moves_follow_client_list (config : Config)
    (message : Client -> Notice -> Outcome) (move : Client -> string -> Outcome)
    (now : Z) (clients : list Client) (lobby : Channel) (st : State) :
  (∀ c, c ∈ clients → move c (channel_cid lobby) = Resolves) →
  (∀ c err, c ∈ clients → message c (IdleNotice (nickname c)) ≠ Rejects err) →
  movesOf (onInterval config message move now clients (Some lobby) st).2
  = (λ c, (c, channel_cid lobby))
      <$> filter
            (λ c, cid c ≠ channel_cid lobby ∧
                  idletime config * 60 * 1000 < idleTime c ∧
                  filter (λ kv : string * Z, now ≤ kv.2) (protectedUsers st) !! clid c
                  = None)
            clients.
Proof.
  intros Hmove _. rewrite movesOf_onInterval, moveIdleClients_moves by done.
  f_equal. apply filter_bool_Prop. intros c.
  rewrite selectedForMove_true, purgeExpired_filter. unfold has.
  destruct (filter (λ kv : string * Z, now ≤ kv.2) (protectedUsers st) !! clid c);
    split; intros (Ha & Hb & Hc); repeat split; try done; lia.
Qed.

Lemma moves_follow_client_list_witness :
  movesOf
    (onInterval tenMinutes messageResolves moveResolves 0
       [dave; carol; bob; alice; botClient]
       (Some lobbyChannel) (withRegistry {["9" := 10800000; "7" := -5]})).2
  = [(dave, "10"); (alice, "10")].
Proof.
  rewrite (moves_follow_client_list tenMinutes messageResolves moveResolves 0
             [dave; carol; bob; alice; botClient] lobbyChannel
             (withRegistry {["9" := 10800000; "7" := -5]})).
  - reflexivity.
  - intros; reflexivity.
  - intros; discriminate.
Defined.
